(** * bluboi: the event-processing engine of main.go

    A shallow embedding of the shared state of [main.go] (Device Registry,
    Adapter State, Client Registry, the two channels) and of the operations
    that run against it, and of the DEVICE listener of the page script,
    followed by the properties of the specification and by further
    properties of the code.

    Conventions.
    - Go strings and [[]byte] are [string] (sequences of 8-bit characters).
    - A call that sends on the channel [Logs] returns the entries it sends,
      in order, next to the new state.  A send blocks while the buffer already
      holds [Logs_cap] entries, until the Broadcast Loop receives; the
      channel buffer itself appears where the code inspects it
      ([GetEventsHandler], [BroadcastLogs]).
    - The BLE driver is outside the program: every driver call takes the
      driver's answer as an argument.
    - A method that holds its mutex from entry to exit is one atomic step;
      goroutines started with [go] are scheduled in any order. *)

From Stdlib Require Import Ascii.
From stdpp Require Import gmap strings list.

Open Scope string_scope.
Open Scope list_scope.
Open Scope nat_scope.

(** ** The driver surface (package [bluetooth]) *)

Module bluetooth.

(** [bluetooth.Address]; only its textual form is used by the program. *)
Record Address := MkAddress { mac : string }.

(** [Address.String()] *)
Definition Address_String (a : Address) : string := mac a.

(** [*bluetooth.Device], the handle of a live connection (never nil). *)
Definition Device := nat.

(** [bluetooth.ScanResult], with [LocalName()] read off the advertisement. *)
Record ScanResult := MkScanResult { Address_of : Address; LocalName : string }.

(** the answer of [Adapter.Connect]: a handle, or [err.Error()] *)
Inductive ConnectResult :=
| ConnectOk (dvc : Device)
| ConnectErr (err : string).

End bluetooth.

#[global] Instance Address_eq_dec : EqDecision bluetooth.Address.
Proof. solve_decision. Defined.

(** ** Data model *)

Record Event := MkEvent { Type_ : string; Data : string }.

Record Log := MkLog { Level : string; Msg : string }.

Record Device := MkDevice { Name : string; Address : bluetooth.Address }.

#[global] Instance Log_eq_dec : EqDecision Log.
Proof. solve_decision. Defined.

#[global] Instance Device_eq_dec : EqDecision Device.
Proof. solve_decision. Defined.

(** [Client]: the subscriber id ([uuid.New().ID()], a uint32), the response
    writer and the request, the latter two named by the connection they
    belong to. *)
Record Client := MkClient { id : N; w : nat; r : nat }.

#[global] Instance Client_eq_dec : EqDecision Client.
Proof. solve_decision. Defined.

(** [SafeAdapter], without the mutex and the driver pointer: [BTDevice] is
    [None] for nil. *)
Record SafeAdapter := MkAdapter {
  BTDevice : option bluetooth.Device;
  Connected : bool
}.

#[global] Instance SafeAdapter_eq_dec : EqDecision SafeAdapter.
Proof. solve_decision. Defined.

(** The package-level variables at start-up. *)
Definition Adapter : SafeAdapter := {| BTDevice := None; Connected := false |}.
Definition Devices : gmap string Device := ∅.
Definition Clients : list Client := [].
Definition Logs_cap : nat := 10.
Definition EventQueue_cap : nat := 10.

(** ** Log entries and their wire form *)

(** [strings.Join] *)
Definition Join (elems : list string) (sep : string) : string :=
  String.concat sep elems.

Definition LogInfo (info : list string) : Log :=
  {| Level := "INFO"; Msg := Join info " " |}.

Definition LogDeviceInfo (info : list string) : Log :=
  {| Level := "DEVICE"; Msg := Join info ";" |}.

Definition LogError (err : list string) : Log :=
  {| Level := "ERROR"; Msg := Join err " " |}.

(** the line feed and the double quote of the Go literals (escaped there) *)
Definition nl : string := String "010"%char EmptyString.
Definition dquote : string := String "034"%char EmptyString.

(** the three literals of the Go expression are [event: ] (with its space),
    line feed + [data: ] + double quote, and double quote + two line feeds *)
Definition LogToSSE (l : Log) : string :=
  "event: " +:+ Level l +:+ (nl +:+ "data: " +:+ dquote) +:+ Msg l
    +:+ (dquote +:+ nl +:+ nl).

(** the bytes of a Go string *)
Definition bytes_of (s : string) : list nat :=
  map nat_of_ascii (String.list_ascii_of_string s).

(** ** Device Registry ([SafeDevices]) *)

Definition Exists (addr : string) (sd : gmap string Device) : bool :=
  bool_decide (is_Some (sd !! addr)).

(** The method [Device]: [sd.Devices[addr]].  Go returns the zero [Device]
    (nil address) for an absent key; [None] stands for it, and the one caller
    asks only after [Exists]. *)
Definition SafeDevices_Device (addr : string) (sd : gmap string Device) : option Device :=
  sd !! addr.

Definition Add (device : Device) (sd : gmap string Device) : gmap string Device :=
  <[bluetooth.Address_String (Address device) := device]> sd.

(** [ForEach] ranges over a Go map, whose iteration order is unspecified:
    [order] is an order in which one traversal may visit the registry. *)
Definition ForEach_order (sd : gmap string Device) (order : list (string * Device)) : Prop :=
  order ≡ₚ map_to_list sd.

Definition ForEach {A} (callback : string → Device → A)
    (order : list (string * Device)) : list A :=
  map (λ kv, callback kv.1 kv.2) order.

(** ** Adapter State ([SafeAdapter]) *)

(** [Connect], one critical section of [sa.mu].  [drv] is the answer of
    [sa.Adapter.Connect], consulted only when the call is reached. *)
Definition Connect (address : string) (drv : bluetooth.ConnectResult)
    (sd : gmap string Device) (sa : SafeAdapter) : SafeAdapter * list Log :=
  if Connected sa || bool_decide (BTDevice sa ≠ None) then
    (sa, [LogError ["You're already connected."]])
  else if negb (Exists address sd) then
    (sa, [LogError ["Could not find the device."]])
  else
    match SafeDevices_Device address sd with
    | None => (sa, []) (* nil address; excluded by [Exists] *)
    | Some device =>
        match drv with
        | bluetooth.ConnectErr err =>
            (sa, [LogError ["Could not connect to "; Name device; err]])
        | bluetooth.ConnectOk dvc =>
            ({| BTDevice := Some dvc; Connected := true |},
             [LogInfo ["Connected to"; Name device]])
        end
    end.

(** [Disconnect], one critical section of [sa.mu].  [drv] is the answer of
    [sa.BTDevice.Disconnect()]: [None] for a nil error. *)
Definition Disconnect (drv : option string) (sa : SafeAdapter)
    : SafeAdapter * list Log :=
  if negb (Connected sa) || bool_decide (BTDevice sa = None) then
    (sa, [LogError ["Currently not connected to any device."]])
  else
    match drv with
    | Some err => (sa, [LogError ["Could not disconnect device -"; err]])
    | None => ({| BTDevice := None; Connected := false |}, [LogInfo ["Disconnected."]])
    end.

(** The discovery callback that [Scan] hands to the driver. *)
Definition Scan_callback (result : bluetooth.ScanResult) (sd : gmap string Device)
    : gmap string Device * list Log :=
  if bool_decide (bluetooth.LocalName result = EmptyString) then (sd, [])
  else if Exists (bluetooth.Address_String (bluetooth.Address_of result)) sd then (sd, [])
  else
    (Add {| Name := bluetooth.LocalName result;
            Address := bluetooth.Address_of result |} sd,
     [LogDeviceInfo [bluetooth.Address_String (bluetooth.Address_of result);
                     bluetooth.LocalName result]]).

(** What the goroutine started by [Scan] does, in order: the driver calls the
    callback per discovery, and [sa.Adapter.Scan] returns once. *)
Inductive ScanEv :=
| Discovered (result : bluetooth.ScanResult)
| Returned (err : option string).

Definition Scan_goroutine_step (ev : ScanEv) (sd : gmap string Device)
    : gmap string Device * list Log :=
  match ev with
  | Discovered result => Scan_callback result sd
  | Returned (Some err) => (sd, [LogError [err]])
  | Returned None => (sd, [])
  end.

Fixpoint Scan_goroutine (evs : list ScanEv) (sd : gmap string Device)
    : gmap string Device * list Log :=
  match evs with
  | [] => (sd, [])
  | ev :: evs =>
      let s1 := Scan_goroutine_step ev sd in
      let s2 := Scan_goroutine evs s1.1 in
      (s2.1, s1.2 ++ s2.2)
  end.

(** One run of the driver during a SCAN: what the goroutine does before
    [ctx.Done()] fires, the answer of [sa.Adapter.StopScan()] at the deadline,
    and what the goroutine still does afterwards. *)
Record ScanRun := MkScanRun {
  before : list ScanEv;
  stop_err : option string;
  after : list ScanEv
}.

(** [Scan(seconds)]: the deadline is [seconds * time.Second]; a failed stop is
    printed with [log.Printf] only and sends nothing on [Logs]. *)
Definition Scan (seconds : nat) (run : ScanRun) (sd : gmap string Device)
    : gmap string Device * list Log :=
  let s1 := Scan_goroutine (before run) sd in
  let stopped :=
    match stop_err run with
    | Some _ => []
    | None => [LogInfo ["Stopped Scanning."]]
    end in
  let s2 := Scan_goroutine (after run) s1.1 in
  (s2.1, LogInfo ["Scanning..."] :: s1.2 ++ stopped ++ s2.2).

(** [StopScan], the STOP_SCAN command. *)
Definition StopScan (drv : option string) : list Log :=
  match drv with
  | Some err => [LogError ["Could not stop scanning -"; err]]
  | None => [LogInfo ["Stopped Scanning."]]
  end.

(** ** Sequences of operations on the shared state *)

Record World := MkWorld {
  adapter : SafeAdapter;
  devices : gmap string Device
}.

(** The operations that touch Adapter State or the Device Registry, each with
    the driver's answer.  [Connect] and [Disconnect] exclude each other by
    [sa.mu]; the callback's registry accesses are not interleaved with another
    writer, the driver running one scan at a time. *)
Inductive Action :=
| CONNECT (address : string) (drv : bluetooth.ConnectResult)
| DISCONNECT (drv : option string)
| DISCOVERY (result : bluetooth.ScanResult).

Definition exec (a : Action) (σ : World) : World * list Log :=
  match a with
  | CONNECT address drv =>
      let s := Connect address drv (devices σ) (adapter σ) in
      ({| adapter := s.1; devices := devices σ |}, s.2)
  | DISCONNECT drv =>
      let s := Disconnect drv (adapter σ) in
      ({| adapter := s.1; devices := devices σ |}, s.2)
  | DISCOVERY result =>
      let s := Scan_callback result (devices σ) in
      ({| adapter := adapter σ; devices := s.1 |}, s.2)
  end.

Fixpoint run (acts : list Action) (σ : World) : World * list Log :=
  match acts with
  | [] => (σ, [])
  | a :: acts =>
      let s1 := exec a σ in
      let s2 := run acts s1.1 in
      (s2.1, s1.2 ++ s2.2)
  end.

(** the process at start-up *)
Definition boot : World := {| adapter := Adapter; devices := Devices |}.

(** [a] establishes a connection from [σ]: it changes Adapter State and ends
    with [Connected] set. *)
Definition establishes (a : Action) (σ : World) : bool :=
  bool_decide (adapter (exec a σ).1 ≠ adapter σ) && Connected (adapter (exec a σ).1).

Fixpoint established (acts : list Action) (σ : World) : nat :=
  match acts with
  | [] => 0
  | a :: acts =>
      (if establishes a σ then 1 else 0) + established acts (exec a σ).1
  end.

Definition successful_disconnect (a : Action) : bool :=
  match a with
  | DISCONNECT None => true
  | _ => false
  end.

(** ** Client Registry ([SafeClients]) *)

Definition AddClient (client : Client) (sc : list Client) : list Client :=
  sc ++ [client].

Definition Length (sc : list Client) : nat := length sc.

(** [RemoveClient]: the first client with that id is cut out, then [break]. *)
Fixpoint RemoveClient (id0 : N) (sc : list Client) : list Client :=
  match sc with
  | [] => []
  | c :: sc' => if bool_decide (id c = id0) then sc' else c :: RemoveClient id0 sc'
  end.

(** [Flush(index)] indexes [sc.Clients]: [false] is the out-of-range panic. *)
Definition Flush (index : nat) (sc : list Client) : bool :=
  bool_decide (is_Some (sc !! index)).

(** What the outside world answers during one [BroadcastLog], per iteration
    [i] of its loop: whether [w.Write] fails, and whether the request context
    is already done. *)
Record Env := MkEnv { write_err : nat → bool; ctx_done : nat → bool }.

(** [sc.Clients = append(sc.Clients[:i], sc.Clients[i+1:]...)] on the backing
    array [arr] of which [sc.Clients] is the first [len] cells.  The slice
    expression [sc.Clients[i+1:]] panics when [i+1] exceeds [len]; otherwise
    the tail is moved one cell down in place and the cell [len-1] keeps its
    old content. *)
Definition evict (i : nat) (arr : list Client) (len : nat)
    : option (list Client * nat) :=
  if decide (i + 1 ≤ len) then
    Some (take i arr ++ take (len - (i + 1)) (drop (i + 1) arr) ++ drop (len - 1) arr,
          len - 1)
  else None.

(** The loop [for i, client := range sc.Clients] of [BroadcastLog]: the range
    expression is evaluated once, so the loop visits the indices below the
    initial length and reads cell [i] of the shared backing array at iteration
    [i].  [todo] counts the iterations left.  The result is the backing array
    and length of [sc.Clients] at the end ([None] after a panic) and the
    writes that succeeded, as (writer, frame). *)
Fixpoint BroadcastLog_range (l : string) (env : Env) (todo i : nat)
    (arr : list Client) (len : nat)
    : option (list Client * nat) * list (nat * string) :=
  match todo with
  | 0 => (Some (arr, len), [])
  | S todo =>
      match arr !! i with
      | None => (Some (arr, len), []) (* not reached: [i] is below [length arr] *)
      | Some client =>
          if write_err env i then
            match evict i arr len with
            | None => (None, [])
            | Some (arr', len') => BroadcastLog_range l env todo (S i) arr' len'
            end
          else if ctx_done env i then
            match evict i arr len with
            | None => (None, [(w client, l)])
            | Some (arr', len') =>
                let k := BroadcastLog_range l env todo (S i) arr' len' in
                (k.1, (w client, l) :: k.2)
            end
          else
            let k := BroadcastLog_range l env todo (S i) arr len in
            (k.1, (w client, l) :: k.2)
      end
  end.

(** [BroadcastLog(l)], one critical section of [sc.mu]. *)
Definition BroadcastLog (l : string) (env : Env) (sc : list Client)
    : option (list Client) * list (nat * string) :=
  let k := BroadcastLog_range l env (length sc) 0 sc (length sc) in
  (match k.1 with
   | Some (arr, len) => Some (take len arr)
   | None => None
   end, k.2).

(** ** Opening an event stream *)

Record Server := MkServer {
  logs : list Log;          (* buffer of the channel [Logs] *)
  eventQueue : list Event;  (* buffer of the channel [EventQueue] *)
  clients : list Client;
  registry : gmap string Device
}.

(** [for len(ch) > 0 { <-ch }] *)
Fixpoint drain {A} (ch : list A) : list A :=
  match ch with
  | [] => []
  | _ :: ch => drain ch
  end.

(** [GetEventsHandler] up to the point where it waits for the request
    context: purge, register, flush, replay.  [order] is the order in which
    [ForEach] visits the registry; the second component lists the entries sent
    on [Logs] by the replay, after the purge.  [None] is the panic of
    [Flush]. *)
Definition GetEventsHandler (id0 : N) (w0 r0 : nat) (order : list (string * Device))
    (s : Server) : option (Server * list Log) :=
  let logs' := drain (logs s) in
  let eventQueue' := drain (eventQueue s) in
  let index := Length (clients s) in
  let clients' := AddClient {| id := id0; w := w0; r := r0 |} (clients s) in
  if Flush index clients' then
    Some ({| logs := logs'; eventQueue := eventQueue'; clients := clients';
             registry := registry s |},
          ForEach (λ _ device,
                     LogDeviceInfo [bluetooth.Address_String (Address device); Name device])
                  order)
  else None.

(** ** The Broadcast Loop and its detached tasks *)

(** [BroadcastLogs] receives an entry and starts [go Clients.BroadcastLog(..)]
    for it, without waiting: [tasks] holds the frames of the goroutines that
    were started and have not yet entered [sc.mu].  A panic in any goroutine
    ends the process. *)
Record Sys := MkSys {
  chan : list Log;       (* buffer of [Logs], oldest first *)
  tasks : list string;   (* started broadcasts, in the order of their start *)
  subs : list Client;    (* [Clients.Clients] *)
  crashed : bool
}.

(** What the scheduler and the environment choose next. *)
Inductive Choice :=
| Enqueue (l : Log)             (* some producer executes [Logs <- l] *)
| Dequeue                       (* [BroadcastLogs]: [l := <-Logs; go ...] *)
| Purge                         (* [GetEventsHandler]: one [<-Logs] of the purge *)
| RunTask (k : nat) (env : Env) (* the [k]-th started broadcast takes [sc.mu] *)
| Register (c : Client)         (* [AddClient] *)
| Unregister (id0 : N).         (* [RemoveClient] *)

(** What happened, as seen from outside. *)
Inductive Obs :=
| Enqueued (l : Log)
| Started (l : Log)
| Purged (l : Log)
| Ran (frame : string) (out : list (nat * string))
| Registered (c : Client)
| Unregistered (id0 : N).

(** One step; [None] when the choice is not enabled (a send on a full buffer
    or a receive on an empty one blocks, and nothing runs after a panic). *)
Definition step (c : Choice) (s : Sys) : option (Sys * Obs) :=
  if crashed s then None else
  match c with
  | Enqueue l =>
      if decide (length (chan s) < Logs_cap) then
        Some ({| chan := chan s ++ [l]; tasks := tasks s; subs := subs s;
                 crashed := false |}, Enqueued l)
      else None
  | Dequeue =>
      match chan s with
      | [] => None
      | l :: q =>
          Some ({| chan := q; tasks := tasks s ++ [LogToSSE l]; subs := subs s;
                   crashed := false |}, Started l)
      end
  | Purge =>
      match chan s with
      | [] => None
      | l :: q =>
          Some ({| chan := q; tasks := tasks s; subs := subs s;
                   crashed := false |}, Purged l)
      end
  | RunTask k env =>
      match tasks s !! k with
      | None => None
      | Some frame =>
          let b := BroadcastLog frame env (subs s) in
          Some (match b.1 with
                | Some sc => {| chan := chan s; tasks := delete k (tasks s);
                                subs := sc; crashed := false |}
                | None => {| chan := chan s; tasks := delete k (tasks s);
                             subs := subs s; crashed := true |}
                end, Ran frame b.2)
      end
  | Register c =>
      Some ({| chan := chan s; tasks := tasks s; subs := AddClient c (subs s);
               crashed := false |}, Registered c)
  | Unregister id0 =>
      Some ({| chan := chan s; tasks := tasks s; subs := RemoveClient id0 (subs s);
               crashed := false |}, Unregistered id0)
  end.

Fixpoint replay (cs : list Choice) (s : Sys) : option (Sys * list Obs) :=
  match cs with
  | [] => Some (s, [])
  | c :: cs =>
      match step c s with
      | None => None
      | Some (s1, o) =>
          match replay cs s1 with
          | None => None
          | Some (s2, os) => Some (s2, o :: os)
          end
      end
  end.

(** Readings of a history. *)
Definition enqueued (os : list Obs) : list Log :=
  flat_map (λ o, match o with Enqueued l => [l] | _ => [] end) os.

Definition received_from_chan (os : list Obs) : list Log :=
  flat_map (λ o, match o with Started l | Purged l => [l] | _ => [] end) os.

Definition started (os : list Obs) : list string :=
  flat_map (λ o, match o with Started l => [LogToSSE l] | _ => [] end) os.

Definition ran (os : list Obs) : list string :=
  flat_map (λ o, match o with Ran frame _ => [frame] | _ => [] end) os.

(** the frames written to the writer [w0], in the order of the writes *)
Definition received (w0 : nat) (os : list Obs) : list string :=
  flat_map (λ o, match o with
                 | Ran _ out => (filter (λ d, d.1 = w0) out).*2
                 | _ => []
                 end) os.

(** [recv] follows [base], each element taken some number of times (0 for a
    gap). *)
Definition follows (base recv : list string) : Prop :=
  ∃ ks : list nat, length ks = length base ∧ recv = concat (zip_with replicate ks base).

(** Every stored device has a name. *)
Definition named (sd : gmap string Device) : Prop :=
  map_Forall (λ _ device, Name device ≠ EmptyString) sd.

(** Adapter State is either the disconnected value, or connected through a
    handle to a device of a registry that is then not empty. *)
Definition settled (σ : World) : Prop :=
  adapter σ = Adapter
  ∨ (∃ dvc, adapter σ = {| BTDevice := Some dvc; Connected := true |})
    ∧ devices σ ≠ ∅.

(** no discovery among the goroutine's events *)
Definition no_discovery (evs : list ScanEv) : Prop :=
  Forall (λ ev, match ev with Discovered _ => False | Returned _ => True end) evs.

(** every write succeeds and no request is cancelled *)
Definition quiet : Env := {| write_err := λ _, false; ctx_done := λ _, false |}.

(** the scheduler lets the oldest started broadcast take the lock first *)
Definition oldest_first (cs : list Choice) : Prop :=
  Forall (λ c, match c with RunTask k _ => k = 0 | _ => True end) cs.

(** iteration [i] of [BroadcastLog] evicts the client it reads: the write
    fails, or the write succeeds and the request context is done *)
Definition evicts (env : Env) (i : nat) : bool := write_err env i || ctx_done env i.

(** [GetEventsHandler] once the request context is done: [RemoveClient(id)]. *)
Definition GetEventsHandler_done (id0 : N) (s : Server) : Server :=
  {| logs := logs s; eventQueue := eventQueue s;
     clients := RemoveClient id0 (clients s); registry := registry s |}.

(** a schedule during which nobody joins or leaves and no broadcast evicts *)
Definition calm (cs : list Choice) : Prop :=
  Forall (λ c, match c with
               | RunTask _ env => ∀ i, evicts env i = false
               | Register _ | Unregister _ => False
               | _ => True
               end) cs.

(** Every device is stored under the text of its own address. *)
Definition keyed (sd : gmap string Device) : Prop :=
  map_Forall (λ addr device, addr = bluetooth.Address_String (Address device)) sd.

(** the entries of level DEVICE *)
Definition device_entries (out : list Log) : list Log :=
  filter (λ l, Level l = "DEVICE") out.

(** the string contains a line feed *)
Fixpoint has_nl (s : string) : bool :=
  match s with
  | EmptyString => false
  | String c s' => bool_decide (c = "010"%char) || has_nl s'
  end.

(** ** Command intake: the handlers and [ProcessEventQueue] *)

(** the events the four command handlers send on [EventQueue]; a field left
    out of the Go literal is the empty string *)
Definition ScanHandler : Event := {| Type_ := "SCAN"; Data := EmptyString |}.
Definition StopScanHandler : Event := {| Type_ := "STOP_SCAN"; Data := EmptyString |}.
Definition ConnectHandler (addr : string) : Event := {| Type_ := "CONNECT"; Data := addr |}.
Definition DisconnectHandler : Event := {| Type_ := "DISCONNECT"; Data := EmptyString |}.

(** the goroutine that [ProcessEventQueue] starts for an event *)
Inductive Started_op :=
| go_Scan (seconds : nat)
| go_StopScan
| go_Connect (address : string)
| go_Disconnect.

(** the [switch e.Type] of [ProcessEventQueue]; it has no default case *)
Definition ProcessEventQueue_switch (e : Event) : option Started_op :=
  if bool_decide (Type_ e = "SCAN") then Some (go_Scan 5)
  else if bool_decide (Type_ e = "STOP_SCAN") then Some go_StopScan
  else if bool_decide (Type_ e = "CONNECT") then Some (go_Connect (Data e))
  else if bool_decide (Type_ e = "DISCONNECT") then Some go_Disconnect
  else None.

(** [ProcessEventQueue] on the events it receives, oldest first: the
    goroutines it starts, in the order of their start *)
Definition ProcessEventQueue (received : list Event) : list Started_op :=
  omap ProcessEventQueue_switch received.

(** ** The page script (script.js) *)

(** the string contains the character *)
Fixpoint has_char (c0 : ascii) (s : string) : bool :=
  match s with
  | EmptyString => false
  | String c s' => bool_decide (c = c0) || has_char c0 s'
  end.

(** [replaceAll] of the double quote by the empty string: every double quote
    is dropped *)
Fixpoint replaceAll_dquote (s : string) : string :=
  match s with
  | EmptyString => EmptyString
  | String c s' =>
      if bool_decide (c = "034"%char) then replaceAll_dquote s'
      else String c (replaceAll_dquote s')
  end.

(** [s.split(sep)] for a separator of one character: the pieces between the
    separators, one piece (the empty string) for the empty string *)
Fixpoint split (sep : ascii) (s : string) : list string :=
  match s with
  | EmptyString => [EmptyString]
  | String c s' =>
      if bool_decide (c = sep) then EmptyString :: split sep s'
      else match split sep s' with
           | piece :: pieces => String c piece :: pieces
           | [] => [String c EmptyString]
           end
  end.

(** a row of the device table: the name cell, the address cell and the
    [data-href] of its Connect button *)
Record Row := MkRow { row_name : string; row_addr : string; row_href : string }.

(** [appendDevice(data)] of public/script.js: [None] when fewer than two
    pieces (an error is printed on the console and no row is added) *)
Definition appendDevice (data : string) : option Row :=
  let d := split ";" data in
  if decide (length d < 2) then None
  else match d with
       | addr :: name :: _ =>
           Some {| row_name := name; row_addr := addr; row_href := "/connect/" +:+ addr |}
       | _ => None
       end.

(** the listener for DEVICE events of public/script.js, on [e.data] *)
Definition DEVICE_listener (data : string) : option Row :=
  appendDevice (replaceAll_dquote data).

(** the listener for DEVICE events of the later script, which keeps the
    addresses it has shown in [devicesMap] (a Map from address to [true]) and
    shows an address once; the state is [devicesMap] and the rows of the
    table, oldest first *)
Definition DEVICE_listener_once (data : string) (ui : gmap string bool * list Row)
    : gmap string bool * list Row :=
  let d := split ";" (replaceAll_dquote data) in
  if decide (length d < 2) then ui
  else match d with
       | addr :: name :: _ =>
           if default false (ui.1 !! addr) then ui
           else (<[addr := true]> ui.1,
                 ui.2 ++ [{| row_name := name; row_addr := addr;
                             row_href := "/connect/" +:+ addr |}])
       | _ => ui
       end.

(** the listener over the data of successive DEVICE events *)
Definition DEVICE_events (datas : list string) (ui : gmap string bool * list Row)
    : gmap string bool * list Row :=
  foldl (λ ui data, DEVICE_listener_once data ui) ui datas.

(** the requests that the router of [main] hands to the four command
    handlers: /scan, /stop, /connect/{addr} with its path parameter, and
    /disconnect *)
Inductive Request :=
| GET_scan
| GET_stop
| GET_connect (addr : string)
| GET_disconnect.

(** the event that the handler of a request sends on [EventQueue] *)
Definition handler_event (req : Request) : Event :=
  match req with
  | GET_scan => ScanHandler
  | GET_stop => StopScanHandler
  | GET_connect addr => ConnectHandler addr
  | GET_disconnect => DisconnectHandler
  end.

(** The Command Queue between the handlers and [ProcessEventQueue]: the
    buffer of [EventQueue], oldest first, and the goroutines that
    [ProcessEventQueue] has started, in the order of their start. *)
Record Intake := MkIntake { queue : list Event; ops : list Started_op }.

Inductive Intake_choice :=
| Accept (req : Request)  (* a command handler executes [EventQueue <- Event{..}] *)
| Receive                 (* [ProcessEventQueue]: [e := <-EventQueue] and its switch *)
| Discard.                (* [GetEventsHandler]: one [<-EventQueue] of the purge *)

Inductive Intake_obs :=
| Accepted (req : Request)
| Received (e : Event)
| Discarded (e : Event).

(** One step; [None] when the choice is not enabled (a send on a full buffer
    or a receive on an empty one blocks). *)
Definition intake_step (c : Intake_choice) (s : Intake) : option (Intake * Intake_obs) :=
  match c with
  | Accept req =>
      if decide (length (queue s) < EventQueue_cap) then
        Some ({| queue := queue s ++ [handler_event req]; ops := ops s |}, Accepted req)
      else None
  | Receive =>
      match queue s with
      | [] => None
      | e :: q =>
          Some ({| queue := q;
                   ops := ops s ++ match ProcessEventQueue_switch e with
                                   | Some op => [op]
                                   | None => []
                                   end |}, Received e)
      end
  | Discard =>
      match queue s with
      | [] => None
      | e :: q => Some ({| queue := q; ops := ops s |}, Discarded e)
      end
  end.

Fixpoint intake_run (cs : list Intake_choice) (s : Intake)
    : option (Intake * list Intake_obs) :=
  match cs with
  | [] => Some (s, [])
  | c :: cs =>
      match intake_step c s with
      | None => None
      | Some (s1, o) =>
          match intake_run cs s1 with
          | None => None
          | Some (s2, os) => Some (s2, o :: os)
          end
      end
  end.

(** Readings of a history of the Command Queue. *)
Definition accepted (os : list Intake_obs) : list Request :=
  flat_map (λ o, match o with Accepted req => [req] | _ => [] end) os.

Definition loop_received (os : list Intake_obs) : list Event :=
  flat_map (λ o, match o with Received e => [e] | _ => [] end) os.

Definition discarded (os : list Intake_obs) : list Event :=
  flat_map (λ o, match o with Discarded e => [e] | _ => [] end) os.

Definition left_queue (os : list Intake_obs) : list Event :=
  flat_map (λ o, match o with Received e | Discarded e => [e] | _ => [] end) os.

(** * Properties *)

(** ** Wire encoding *)

Lemma Join_pair (a b sep : string) : Join [a; b] sep = a +:+ sep +:+ b.
Proof. reflexivity. Qed.

Lemma Scan_callback_out (result : bluetooth.ScanResult) (sd : gmap string Device) :
  (Scan_callback result sd).2 = []
  ∨ (Scan_callback result sd).2 =
      [{| Level := "DEVICE";
          Msg := bluetooth.Address_String (bluetooth.Address_of result)
                   +:+ ";" +:+ bluetooth.LocalName result |}].
Proof.
  unfold Scan_callback.
  case_bool_decide; [by left|].
  destruct (Exists _ sd); [by left|by right].
Qed.

Lemma Flush_new_client (c : Client) (sc : list Client) :
  Flush (Length sc) (AddClient c sc) = true.
Proof.
  unfold Flush, Length, AddClient. apply bool_decide_eq_true.
  exists c. by rewrite lookup_app_r, Nat.sub_diag.
Qed.

(** C8. A log entry is rendered as [event: ] + level + line feed + [data: ] +
    double quote + message + double quote + two line feeds.  The entry
    DEVICE / AA:BB:CC:DD:EE:FF;MyDevice is rendered as exactly the fifty bytes
    of the frame given in the specification.  A DEVICE entry made for a
    discovery, by the scan callback or by the replay of a newly opened stream,
    has the message address + [;] + name. *)
Theorem LogToSSE_frame :
  (∀ l : Log,
     LogToSSE l =
       "event: " +:+ Level l +:+ nl +:+ "data: " +:+ dquote +:+ Msg l
         +:+ dquote +:+ nl +:+ nl)
  ∧ bytes_of (LogToSSE {| Level := "DEVICE"; Msg := "AA:BB:CC:DD:EE:FF;MyDevice" |}) =
      [101; 118; 101; 110; 116; 58; 32; 68; 69; 86; 73; 67; 69; 10;
       100; 97; 116; 97; 58; 32; 34;
       65; 65; 58; 66; 66; 58; 67; 67; 58; 68; 68; 58; 69; 69; 58; 70; 70; 59;
       77; 121; 68; 101; 118; 105; 99; 101; 34; 10; 10]
  ∧ (∀ (result : bluetooth.ScanResult) (sd : gmap string Device),
       Forall (λ l, l = {| Level := "DEVICE";
                           Msg := bluetooth.Address_String (bluetooth.Address_of result)
                                    +:+ ";" +:+ bluetooth.LocalName result |})
              (Scan_callback result sd).2)
  ∧ (∀ (id0 : N) (w0 r0 : nat) (order : list (string * Device)) (s : Server),
       match GetEventsHandler id0 w0 r0 order s with
       | Some (_, out) =>
           Forall2 (λ kv l,
                      l = {| Level := "DEVICE";
                             Msg := bluetooth.Address_String (Address kv.2)
                                      +:+ ";" +:+ Name kv.2 |})
                   order out
       | None => False
       end).
Proof.
  split_and!.
  - intros [lv m]. unfold LogToSSE. cbn [Level Msg]. reflexivity.
  - vm_compute. reflexivity.
  - intros result sd.
    destruct (Scan_callback_out result sd) as [-> | ->]; repeat constructor.
  - intros id0 w0 r0 order s. unfold GetEventsHandler.
    rewrite Flush_new_client. unfold ForEach.
    induction order as [|kv order IH]; constructor; [reflexivity | exact IH].
Qed.

(** ** Adapter State *)

(** C4. DISCONNECT while the flag is off or the handle is nil changes nothing
    and sends exactly one ERROR entry; with a connection, a nil answer of the
    driver resets Adapter State to its disconnected value and sends one INFO
    entry, and an error answer leaves the flag on and the handle in place and
    sends one ERROR entry. *)
Theorem Disconnect_cases :
  (∀ (drv : option string) (h : option bluetooth.Device),
     Disconnect drv {| BTDevice := h; Connected := false |} =
       ({| BTDevice := h; Connected := false |},
        [{| Level := "ERROR"; Msg := "Currently not connected to any device." |}]))
  ∧ (∀ (drv : option string) (c : bool),
       Disconnect drv {| BTDevice := None; Connected := c |} =
         ({| BTDevice := None; Connected := c |},
          [{| Level := "ERROR"; Msg := "Currently not connected to any device." |}]))
  ∧ (∀ dvc : bluetooth.Device,
       Disconnect None {| BTDevice := Some dvc; Connected := true |} =
         (Adapter, [{| Level := "INFO"; Msg := "Disconnected." |}]))
  ∧ (∀ (dvc : bluetooth.Device) (err : string),
       Disconnect (Some err) {| BTDevice := Some dvc; Connected := true |} =
         ({| BTDevice := Some dvc; Connected := true |},
          [{| Level := "ERROR"; Msg := "Could not disconnect device - " +:+ err |}])).
Proof.
  split_and!.
  - intros drv h. reflexivity.
  - intros drv []; reflexivity.
  - intros dvc. reflexivity.
  - intros dvc err. reflexivity.
Qed.

Lemma Exists_true (addr : string) (sd : gmap string Device) (device : Device) :
  sd !! addr = Some device → Exists addr sd = true.
Proof. intros H. apply bool_decide_eq_true. by exists device. Qed.

Lemma Exists_false (addr : string) (sd : gmap string Device) :
  sd !! addr = None → Exists addr sd = false.
Proof. intros H. apply bool_decide_eq_false. rewrite H. by intros [? ?]. Qed.

Lemma Connect_busy (address : string) (drv : bluetooth.ConnectResult)
    (sd : gmap string Device) (sa : SafeAdapter) :
  Connected sa = true ∨ BTDevice sa ≠ None →
  Connect address drv sd sa =
    (sa, [{| Level := "ERROR"; Msg := "You're already connected." |}]).
Proof.
  intros H. unfold Connect.
  destruct (Connected sa) eqn:Hc; [reflexivity|].
  destruct H as [H|H]; [discriminate|].
  by rewrite bool_decide_eq_true_2.
Qed.

(** C5. CONNECT changes nothing and sends one ERROR entry when the flag is on
    or a handle is present; from the disconnected state it changes nothing and
    sends one ERROR entry when the address is not in the Device Registry; for
    a registered address it asks the driver, and a handle sets the flag and
    the handle in the same critical section and sends one INFO entry, while an
    error leaves Adapter State as it was and sends one ERROR entry. *)
Theorem Connect_cases (address : string) (sd : gmap string Device) :
  (∀ (drv : bluetooth.ConnectResult) (sa : SafeAdapter),
     Connected sa = true ∨ BTDevice sa ≠ None →
     Connect address drv sd sa =
       (sa, [{| Level := "ERROR"; Msg := "You're already connected." |}]))
  ∧ (∀ drv : bluetooth.ConnectResult,
       sd !! address = None →
       Connect address drv sd Adapter =
         (Adapter, [{| Level := "ERROR"; Msg := "Could not find the device." |}]))
  ∧ (∀ (device : Device) (dvc : bluetooth.Device),
       sd !! address = Some device →
       Connect address (bluetooth.ConnectOk dvc) sd Adapter =
         ({| BTDevice := Some dvc; Connected := true |},
          [{| Level := "INFO"; Msg := "Connected to " +:+ Name device |}]))
  ∧ (∀ (device : Device) (err : string),
       sd !! address = Some device →
       Connect address (bluetooth.ConnectErr err) sd Adapter =
         (Adapter,
          [{| Level := "ERROR";
              Msg := "Could not connect to  " +:+ Name device +:+ " " +:+ err |}])).
Proof.
  split_and!.
  - intros drv sa H. by apply Connect_busy.
  - intros drv H. unfold Connect. cbn [Adapter Connected BTDevice orb].
    rewrite bool_decide_eq_false_2 by (intros Hn; by apply Hn).
    by rewrite (Exists_false _ _ H).
  - intros device dvc H. unfold Connect. cbn [Adapter Connected BTDevice orb].
    rewrite bool_decide_eq_false_2 by (intros Hn; by apply Hn).
    rewrite (Exists_true _ _ _ H). unfold SafeDevices_Device. rewrite H.
    reflexivity.
  - intros device err H. unfold Connect. cbn [Adapter Connected BTDevice orb].
    rewrite bool_decide_eq_false_2 by (intros Hn; by apply Hn).
    rewrite (Exists_true _ _ _ H). unfold SafeDevices_Device. rewrite H.
    reflexivity.
Qed.

Lemma Connect_cases_witness :
  Connect "AA:BB" (bluetooth.ConnectOk 4)
    (Add {| Name := "Lamp"; Address := bluetooth.MkAddress "AA:BB" |} Devices)
    {| BTDevice := Some 9; Connected := true |} =
    ({| BTDevice := Some 9; Connected := true |},
     [{| Level := "ERROR"; Msg := "You're already connected." |}])
  ∧ Connect "CC:DD" (bluetooth.ConnectOk 4)
      (Add {| Name := "Lamp"; Address := bluetooth.MkAddress "AA:BB" |} Devices) Adapter =
      (Adapter, [{| Level := "ERROR"; Msg := "Could not find the device." |}])
  ∧ Connect "AA:BB" (bluetooth.ConnectOk 4)
      (Add {| Name := "Lamp"; Address := bluetooth.MkAddress "AA:BB" |} Devices) Adapter =
      ({| BTDevice := Some 4; Connected := true |},
       [{| Level := "INFO"; Msg := "Connected to Lamp" |}])
  ∧ Connect "AA:BB" (bluetooth.ConnectErr "timeout")
      (Add {| Name := "Lamp"; Address := bluetooth.MkAddress "AA:BB" |} Devices) Adapter =
      (Adapter, [{| Level := "ERROR"; Msg := "Could not connect to  Lamp timeout" |}]).
Proof.
  split; [|split; [|split]].
  - apply (proj1 (Connect_cases "AA:BB" _)). by left.
  - apply (proj1 (proj2 (Connect_cases "CC:DD" _))). reflexivity.
  - apply (proj1 (proj2 (proj2 (Connect_cases "AA:BB" _)))
             {| Name := "Lamp"; Address := bluetooth.MkAddress "AA:BB" |}).
    reflexivity.
  - apply (proj2 (proj2 (proj2 (Connect_cases "AA:BB" _)))
             {| Name := "Lamp"; Address := bluetooth.MkAddress "AA:BB" |}).
    reflexivity.
Defined.

(** ** Sequences of commands and discoveries *)

Lemma run_app (acts1 acts2 : list Action) (σ : World) :
  run (acts1 ++ acts2) σ =
    ((run acts2 (run acts1 σ).1).1, (run acts1 σ).2 ++ (run acts2 (run acts1 σ).1).2).
Proof.
  revert σ. induction acts1 as [|a acts1 IH]; intros σ; cbn [run app fst snd].
  - by destruct (run acts2 σ).
  - rewrite IH. cbn [fst snd]. by rewrite <- app_assoc.
Qed.

Lemma Connect_result (address : string) (drv : bluetooth.ConnectResult)
    (sd : gmap string Device) (sa : SafeAdapter) :
  (Connect address drv sd sa).1 = sa
  ∨ sa = Adapter
    ∧ is_Some (sd !! address)
    ∧ ∃ dvc, drv = bluetooth.ConnectOk dvc
             ∧ (Connect address drv sd sa).1 = {| BTDevice := Some dvc; Connected := true |}.
Proof.
  destruct sa as [[d|] c].
  { left. rewrite Connect_busy; [done|]. by right. }
  destruct c.
  { left. rewrite Connect_busy; [done|]. by left. }
  unfold Connect. cbn [Connected BTDevice orb].
  rewrite bool_decide_eq_false_2 by (intros Hn; by apply Hn).
  unfold Exists, SafeDevices_Device. case_bool_decide as He; cbn [negb]; [|by left].
  destruct He as [device He]. rewrite He.
  destruct drv as [dvc|err]; [|by left].
  right. split_and!; [done|by exists device|by exists dvc].
Qed.

Lemma Disconnect_result (drv : option string) (sa : SafeAdapter) :
  (Disconnect drv sa).1 = sa
  ∨ drv = None ∧ Connected sa = true ∧ (Disconnect drv sa).1 = Adapter.
Proof.
  unfold Disconnect.
  destruct (negb (Connected sa) || bool_decide (BTDevice sa = None)) eqn:E; [by left|].
  apply orb_false_elim in E as [E _]. apply negb_false_iff in E.
  destruct drv; [by left|by right].
Qed.

Lemma Scan_callback_lookup (result : bluetooth.ScanResult) (sd : gmap string Device)
    (addr : string) (device : Device) :
  sd !! addr = Some device → (Scan_callback result sd).1 !! addr = Some device.
Proof.
  intros H. unfold Scan_callback.
  case_bool_decide; [done|].
  destruct (Exists _ sd) eqn:E; [done|].
  cbn [fst]. unfold Add. cbn [Address]. rewrite lookup_insert_ne; [done|].
  intros <-. unfold Exists in E. apply bool_decide_eq_false in E.
  apply E. by exists device.
Qed.

Lemma Scan_callback_named (result : bluetooth.ScanResult) (sd : gmap string Device) :
  named sd → named (Scan_callback result sd).1.
Proof.
  intros H. unfold Scan_callback.
  case_bool_decide as Hn; [done|].
  destruct (Exists _ sd); [done|].
  cbn [fst]. unfold Add, named. by apply map_Forall_insert_2.
Qed.

Lemma exec_lookup (a : Action) (σ : World) (addr : string) (device : Device) :
  devices σ !! addr = Some device → devices (exec a σ).1 !! addr = Some device.
Proof.
  destruct a; cbn [exec fst devices]; [done|done|apply Scan_callback_lookup].
Qed.

Lemma run_lookup (acts : list Action) (σ : World) (addr : string) (device : Device) :
  devices σ !! addr = Some device → devices (run acts σ).1 !! addr = Some device.
Proof.
  revert σ. induction acts as [|a acts IH]; intros σ H; cbn [run fst]; [done|].
  apply IH. by apply exec_lookup.
Qed.

Lemma exec_named (a : Action) (σ : World) :
  named (devices σ) → named (devices (exec a σ).1).
Proof.
  destruct a; cbn [exec fst devices]; [done|done|apply Scan_callback_named].
Qed.

Lemma run_named (acts : list Action) (σ : World) :
  named (devices σ) → named (devices (run acts σ).1).
Proof.
  revert σ. induction acts as [|a acts IH]; intros σ H; cbn [run fst]; [done|].
  apply IH. by apply exec_named.
Qed.

Lemma exec_nonempty (a : Action) (σ : World) :
  devices σ ≠ ∅ → devices (exec a σ).1 ≠ ∅.
Proof.
  intros H He. apply H. apply map_empty. intros addr.
  destruct (devices σ !! addr) as [device|] eqn:E; [|done].
  apply (exec_lookup a) in E. rewrite He in E. by rewrite lookup_empty in E.
Qed.

Lemma exec_settled (a : Action) (σ : World) : settled σ → settled (exec a σ).1.
Proof.
  intros Hs. destruct a as [address drv|drv|result].
  - cbn [exec fst]. destruct (Connect_result address drv (devices σ) (adapter σ))
      as [E|(E0 & [device Hd] & dvc & _ & E)]; rewrite E.
    + destruct Hs as [Hs|[Hs Hne]]; [by left|by right].
    + right. cbn [adapter devices]. split; [by exists dvc|].
      intros He. rewrite He in Hd. by rewrite lookup_empty in Hd.
  - cbn [exec fst]. destruct (Disconnect_result drv (adapter σ)) as [E|(_ & _ & E)];
      rewrite E; [|by left].
    destruct Hs as [Hs|[Hs Hne]]; [by left|by right].
  - destruct Hs as [Hs|[Hs Hne]]; [by left|].
    right. split; [done|]. by apply exec_nonempty.
Qed.

Lemma run_settled (acts : list Action) (σ : World) : settled σ → settled (run acts σ).1.
Proof.
  revert σ. induction acts as [|a acts IH]; intros σ H; cbn [run fst]; [done|].
  apply IH. by apply exec_settled.
Qed.

Lemma boot_settled (sd : gmap string Device) :
  settled {| adapter := Adapter; devices := sd |}.
Proof. by left. Qed.

(** C6. Whatever commands and discoveries came before, if the Device Registry
    is (still) empty, CONNECT of AA:BB sends exactly one ERROR entry, the one
    that says that the device could not be found, and leaves Adapter State and
    the registry as they were. *)
Theorem Connect_empty_registry (acts : list Action) (drv : bluetooth.ConnectResult) :
  devices (run acts boot).1 = ∅ →
  exec (CONNECT "AA:BB" drv) (run acts boot).1 =
    ((run acts boot).1, [{| Level := "ERROR"; Msg := "Could not find the device." |}]).
Proof.
  intros He.
  destruct (run_settled acts boot (boot_settled _)) as [Ha|[_ Hne]]; [|done].
  destruct (run acts boot).1 as [sa sd]. cbn [adapter devices] in *. subst sa sd.
  reflexivity.
Qed.

Lemma Connect_empty_registry_witness :
  devices (run [DISCONNECT None; CONNECT "11:22" (bluetooth.ConnectOk 7)] boot).1 = ∅
  ∧ exec (CONNECT "AA:BB" (bluetooth.ConnectOk 8))
         (run [DISCONNECT None; CONNECT "11:22" (bluetooth.ConnectOk 7)] boot).1 =
      ((run [DISCONNECT None; CONNECT "11:22" (bluetooth.ConnectOk 7)] boot).1,
       [{| Level := "ERROR"; Msg := "Could not find the device." |}]).
Proof.
  split; [reflexivity|].
  apply (Connect_empty_registry
           [DISCONNECT None; CONNECT "11:22" (bluetooth.ConnectOk 7)]
           (bluetooth.ConnectOk 8)).
  reflexivity.
Defined.

Lemma Scan_goroutine_named (evs : list ScanEv) (sd : gmap string Device) :
  named sd → named (Scan_goroutine evs sd).1.
Proof.
  revert sd. induction evs as [|ev evs IH]; intros sd H; cbn [Scan_goroutine fst]; [done|].
  apply IH. destruct ev as [result|[err|]]; cbn [Scan_goroutine_step fst]; [|done|done].
  by apply Scan_callback_named.
Qed.

(** C10. A discovery whose local name is the empty string changes nothing in
    the Device Registry and sends no entry; hence every device stored in the
    registry after any sequence of commands and discoveries since start-up has
    a non-empty name, and a whole SCAN keeps a registry of named devices
    so. *)
Theorem empty_name_dropped :
  (∀ (a : bluetooth.Address) (sd : gmap string Device),
     Scan_callback {| bluetooth.Address_of := a; bluetooth.LocalName := EmptyString |} sd = (sd, []))
  ∧ (∀ acts : list Action,
       map_Forall (λ _ device, Name device ≠ EmptyString) (devices (run acts boot).1))
  ∧ (∀ (seconds : nat) (r0 : ScanRun) (sd : gmap string Device),
       map_Forall (λ _ device, Name device ≠ EmptyString) sd →
       map_Forall (λ _ device, Name device ≠ EmptyString) (Scan seconds r0 sd).1).
Proof.
  split_and!.
  - intros a sd. reflexivity.
  - intros acts. apply (run_named acts boot). apply map_Forall_empty.
  - intros seconds r0 sd H. unfold Scan. cbn [fst].
    by do 2 apply Scan_goroutine_named.
Qed.

Lemma empty_name_dropped_witness :
  map_Forall (λ _ device, Name device ≠ EmptyString)
    (Scan 5 {| before := [Discovered {| bluetooth.Address_of := bluetooth.MkAddress "AA:BB";
                                        bluetooth.LocalName := EmptyString |};
                          Discovered {| bluetooth.Address_of := bluetooth.MkAddress "CC:DD";
                                        bluetooth.LocalName := "Lamp" |}];
               stop_err := None;
               after := [Returned None] |} ∅).1.
Proof.
  apply (proj2 (proj2 empty_name_dropped)). apply map_Forall_empty.
Defined.

(** ** Device Registry *)

(** C3, as stated, fails: [Add] of a device whose address is already stored
    replaces the stored device, name included. *)
Lemma Add_replaces_stored_name :
  ¬ (∀ (stored later : Device) (sd : gmap string Device),
       Address later = Address stored →
       sd !! bluetooth.Address_String (Address stored) = Some stored →
       Name <$> Add later sd !! bluetooth.Address_String (Address stored)
         = Some (Name stored)).
Proof.
  intros H.
  specialize (H {| Name := "Lamp"; Address := bluetooth.MkAddress "AA:BB" |}
                {| Name := "Plug"; Address := bluetooth.MkAddress "AA:BB" |}
                (Add {| Name := "Lamp"; Address := bluetooth.MkAddress "AA:BB" |} Devices)
                eq_refl eq_refl).
  vm_compute in H. discriminate H.
Qed.

(** C3, amended. [Add] stores the device under its address unconditionally
    (adding the same device twice is adding it once); first-write-wins is the
    scan callback's: a discovery never changes a device that is already
    stored, so a stored device stays as first written through any later
    commands and discoveries. *)
Theorem discovery_first_write_wins :
  (∀ (device : Device) (sd : gmap string Device),
     Add device sd !! bluetooth.Address_String (Address device) = Some device
     ∧ Add device (Add device sd) = Add device sd)
  ∧ (∀ (result : bluetooth.ScanResult) (sd : gmap string Device)
       (addr : string) (stored : Device),
       sd !! addr = Some stored →
       (Scan_callback result sd).1 !! addr = Some stored)
  ∧ (∀ (acts : list Action) (σ : World) (addr : string) (stored : Device),
       devices σ !! addr = Some stored →
       devices (run acts σ).1 !! addr = Some stored).
Proof.
  split_and!.
  - intros device sd. unfold Add. split.
    + apply lookup_insert_eq.
    + apply insert_insert_eq.
  - intros result sd addr stored. apply Scan_callback_lookup.
  - intros acts σ addr stored. apply run_lookup.
Qed.

Lemma discovery_first_write_wins_witness :
  devices (run [DISCOVERY {| bluetooth.Address_of := bluetooth.MkAddress "AA:BB";
                             bluetooth.LocalName := "Plug" |};
                CONNECT "AA:BB" (bluetooth.ConnectOk 3)]
               {| adapter := Adapter;
                  devices := Add {| Name := "Lamp"; Address := bluetooth.MkAddress "AA:BB" |}
                                 Devices |}).1 !! "AA:BB"
    = Some {| Name := "Lamp"; Address := bluetooth.MkAddress "AA:BB" |}.
Proof.
  apply (proj2 (proj2 discovery_first_write_wins)). reflexivity.
Defined.

(** ** At most one connection *)

Lemma exec_connected (a : Action) (σ : World) :
  Connected (adapter σ) = true → successful_disconnect a = false →
  adapter (exec a σ).1 = adapter σ.
Proof.
  intros Hc Ha. destruct a as [address drv|drv|result]; cbn [exec fst adapter].
  - rewrite Connect_busy; [done|by left].
  - destruct (Disconnect_result drv (adapter σ)) as [E|(-> & _)]; [done|discriminate Ha].
  - done.
Qed.

Lemma establishes_connected (a : Action) (σ : World) :
  establishes a σ = true → Connected (adapter (exec a σ).1) = true.
Proof. unfold establishes. intros H. by apply andb_true_iff in H as [_ H]. Qed.

Lemma not_establishes (a : Action) (σ : World) :
  adapter (exec a σ).1 = adapter σ → establishes a σ = false.
Proof.
  intros E. unfold establishes. apply andb_false_iff. left.
  apply bool_decide_eq_false. intros H. by apply H.
Qed.

Lemma run_connected (acts : list Action) (σ : World) :
  Connected (adapter σ) = true →
  Forall (λ a, successful_disconnect a = false) acts →
  adapter (run acts σ).1 = adapter σ ∧ established acts σ = 0.
Proof.
  revert σ. induction acts as [|a acts IH]; intros σ Hc Hall; cbn [run established fst].
  - done.
  - apply Forall_cons in Hall as [Ha Hall].
    pose proof (exec_connected a σ Hc Ha) as E.
    destruct (IH (exec a σ).1) as [IH1 IH2]; [by rewrite E|done|].
    rewrite IH1, IH2, (not_establishes a σ E). by rewrite E.
Qed.

Lemma established_le_1 (acts : list Action) (σ : World) :
  Forall (λ a, successful_disconnect a = false) acts → established acts σ ≤ 1.
Proof.
  revert σ. induction acts as [|a acts IH]; intros σ Hall; cbn [established]; [lia|].
  apply Forall_cons in Hall as [Ha Hall].
  destruct (establishes a σ) eqn:E.
  - apply establishes_connected in E.
    destruct (run_connected acts (exec a σ).1 E Hall) as [_ ->]. lia.
  - specialize (IH (exec a σ).1 Hall). lia.
Qed.

(** C1. Start from the disconnected Adapter State and let any sequence of
    CONNECT commands (with discoveries and failed DISCONNECTs in between, and
    whatever the driver answers) pass through the critical section in any
    order: at most one of them establishes a connection.  Once a command has
    established one, every later CONNECT that no successful DISCONNECT
    precedes leaves Adapter State as it is and sends exactly the ERROR entry
    of the already-connected case; and the flag is on exactly when a handle
    is held, so there is never a second live handle. *)
Theorem Connect_at_most_one (sd : gmap string Device) (acts : list Action) :
  Forall (λ a, successful_disconnect a = false) acts →
  established acts {| adapter := Adapter; devices := sd |} ≤ 1
  ∧ (∀ (pre mid : list Action) (a : Action) (address : string)
       (drv : bluetooth.ConnectResult),
       acts = pre ++ a :: mid →
       establishes a (run pre {| adapter := Adapter; devices := sd |}).1 = true →
       exec (CONNECT address drv) (run acts {| adapter := Adapter; devices := sd |}).1 =
         ((run acts {| adapter := Adapter; devices := sd |}).1,
          [{| Level := "ERROR"; Msg := "You're already connected." |}]))
  ∧ (Connected (adapter (run acts {| adapter := Adapter; devices := sd |}).1) = true
     ↔ BTDevice (adapter (run acts {| adapter := Adapter; devices := sd |}).1) ≠ None).
Proof.
  intros Hall. split_and!.
  - by apply established_le_1.
  - intros pre mid a address drv -> Ha.
    apply Forall_app in Hall as [_ Hall]. apply Forall_cons in Hall as [_ Hall].
    rewrite run_app. cbn [run fst].
    set (σ0 := {| adapter := Adapter; devices := sd |}) in *.
    apply establishes_connected in Ha.
    destruct (run_connected mid (exec a (run pre σ0).1).1 Ha Hall) as [E _].
    set (σ := (run mid (exec a (run pre σ0).1).1).1) in *.
    cbn [exec]. rewrite Connect_busy; [|left; by rewrite E].
    cbn [fst snd]. by destruct σ.
  - destruct (run_settled acts _ (boot_settled sd)) as [->|[[dvc ->] _]]; cbn; split; done.
Qed.

Lemma Connect_at_most_one_witness :
  established
    [DISCOVERY {| bluetooth.Address_of := bluetooth.MkAddress "AA:BB";
                  bluetooth.LocalName := "Lamp" |};
     CONNECT "AA:BB" (bluetooth.ConnectOk 1);
     CONNECT "AA:BB" (bluetooth.ConnectOk 2);
     DISCONNECT (Some "busy")]
    {| adapter := Adapter; devices := Devices |} ≤ 1
  ∧ exec (CONNECT "AA:BB" (bluetooth.ConnectOk 3))
         (run [DISCOVERY {| bluetooth.Address_of := bluetooth.MkAddress "AA:BB";
                            bluetooth.LocalName := "Lamp" |};
               CONNECT "AA:BB" (bluetooth.ConnectOk 1);
               CONNECT "AA:BB" (bluetooth.ConnectOk 2);
               DISCONNECT (Some "busy")]
              {| adapter := Adapter; devices := Devices |}).1 =
      ((run [DISCOVERY {| bluetooth.Address_of := bluetooth.MkAddress "AA:BB";
                          bluetooth.LocalName := "Lamp" |};
             CONNECT "AA:BB" (bluetooth.ConnectOk 1);
             CONNECT "AA:BB" (bluetooth.ConnectOk 2);
             DISCONNECT (Some "busy")]
            {| adapter := Adapter; devices := Devices |}).1,
       [{| Level := "ERROR"; Msg := "You're already connected." |}]).
Proof.
  destruct (Connect_at_most_one Devices
              [DISCOVERY {| bluetooth.Address_of := bluetooth.MkAddress "AA:BB";
                            bluetooth.LocalName := "Lamp" |};
               CONNECT "AA:BB" (bluetooth.ConnectOk 1);
               CONNECT "AA:BB" (bluetooth.ConnectOk 2);
               DISCONNECT (Some "busy")]) as (H1 & H2 & _).
  - repeat constructor.
  - split; [exact H1|].
    apply (H2 [DISCOVERY {| bluetooth.Address_of := bluetooth.MkAddress "AA:BB";
                            bluetooth.LocalName := "Lamp" |}]
              [CONNECT "AA:BB" (bluetooth.ConnectOk 2); DISCONNECT (Some "busy")]
              (CONNECT "AA:BB" (bluetooth.ConnectOk 1))); reflexivity.
Defined.

(** ** SCAN *)

Lemma Scan_goroutine_no_discovery (evs : list ScanEv) (sd : gmap string Device) :
  no_discovery evs →
  (Scan_goroutine evs sd).1 = sd
  ∧ Forall (λ l, Level l = "ERROR") (Scan_goroutine evs sd).2.
Proof.
  intros H. induction H as [|ev evs Hev _ [IH1 IH2]]; cbn [Scan_goroutine fst snd]; [done|].
  destruct ev as [result|[err|]]; [done| |]; cbn [Scan_goroutine_step fst snd].
  - rewrite IH1. split; [done|]. apply Forall_app. split; [|done]. by repeat constructor.
  - rewrite IH1. by split.
Qed.

Lemma filter_all_error (out : list Log) :
  Forall (λ l, Level l = "ERROR") out → filter (λ l, Level l ≠ "ERROR") out = [].
Proof.
  induction 1 as [|l out Hl _ IH]; [done|].
  rewrite filter_cons_False; [done|]. intros Hn. by apply Hn.
Qed.

(** C9, as stated, fails: a discovery during a scan need not be logged at
    DEVICE level (nor stored); one without a local name is not. *)
Lemma Scan_discovery_not_logged :
  ¬ (∀ (seconds : nat) (r0 : ScanRun) (sd : gmap string Device)
       (result : bluetooth.ScanResult),
       Discovered result ∈ before r0 →
       LogDeviceInfo [bluetooth.Address_String (bluetooth.Address_of result);
                      bluetooth.LocalName result] ∈ (Scan seconds r0 sd).2).
Proof.
  intros H.
  specialize (H 5 {| before := [Discovered {| bluetooth.Address_of := bluetooth.MkAddress "AA:BB";
                                              bluetooth.LocalName := EmptyString |}];
                     stop_err := None;
                     after := [Returned None] |}
                Devices
                {| bluetooth.Address_of := bluetooth.MkAddress "AA:BB";
                   bluetooth.LocalName := EmptyString |}).
  specialize (H ltac:(by apply list_elem_of_singleton)).
  vm_compute in H.
  repeat (apply elem_of_cons in H as [H|H]; [discriminate H|]).
  by apply elem_of_nil in H.
Qed.

Lemma Scan_goroutine_errors (evs : list ScanEv) (sd : gmap string Device) :
  no_discovery evs →
  (Scan_goroutine evs sd).2 =
    flat_map (λ ev, match ev with
                    | Returned (Some err) => [{| Level := "ERROR"; Msg := err |}]
                    | _ => []
                    end) evs.
Proof.
  intros H. induction H as [|ev evs Hev Hevs IH]; cbn [Scan_goroutine snd flat_map]; [done|].
  destruct ev as [result|[err|]]; [done| |]; cbn [Scan_goroutine_step fst snd].
  - by rewrite IH.
  - by rewrite IH.
Qed.

(** C9, amended.  SCAN first sends INFO [Scanning...], then the entries of
    the discoveries and driver errors that come before the deadline, in their
    order, then, when the stop call at the deadline succeeds, INFO
    [Stopped Scanning.] (nothing when it fails), then the entries of what
    still comes after the deadline.  With no discovery and a stop call that
    succeeds, the registry is unchanged, no DEVICE entry is sent, and the
    entries are exactly INFO [Scanning...], an ERROR entry per error returned
    by the driver's scan call before the deadline, INFO [Stopped Scanning.],
    and an ERROR entry per such error after it; with no such error they are
    the two INFO entries.  A discovery with a non-empty local name and an
    address not yet in the Device Registry is stored under its address and
    logged at DEVICE level; a discovery of a stored address, and a discovery
    without a local name, changes nothing and is not logged. *)
Theorem Scan_cases :
  (∀ (seconds : nat) (r0 : ScanRun) (sd : gmap string Device),
     no_discovery (before r0) → no_discovery (after r0) → stop_err r0 = None →
     (Scan seconds r0 sd).1 = sd
     ∧ filter (λ l, Level l ≠ "ERROR") (Scan seconds r0 sd).2 =
         [{| Level := "INFO"; Msg := "Scanning..." |};
          {| Level := "INFO"; Msg := "Stopped Scanning." |}]
     ∧ Forall (λ l, Level l ≠ "DEVICE") (Scan seconds r0 sd).2)
  ∧ (∀ (seconds : nat) (sd : gmap string Device),
       Scan seconds {| before := []; stop_err := None; after := [Returned None] |} sd =
         (sd, [{| Level := "INFO"; Msg := "Scanning..." |};
               {| Level := "INFO"; Msg := "Stopped Scanning." |}]))
  ∧ (∀ (result : bluetooth.ScanResult) (sd : gmap string Device),
       bluetooth.LocalName result ≠ EmptyString →
       sd !! bluetooth.Address_String (bluetooth.Address_of result) = None →
       Scan_callback result sd =
         (<[bluetooth.Address_String (bluetooth.Address_of result) :=
              {| Name := bluetooth.LocalName result;
                 Address := bluetooth.Address_of result |}]> sd,
          [{| Level := "DEVICE";
              Msg := bluetooth.Address_String (bluetooth.Address_of result)
                       +:+ ";" +:+ bluetooth.LocalName result |}]))
  ∧ (∀ (result : bluetooth.ScanResult) (sd : gmap string Device) (stored : Device),
       sd !! bluetooth.Address_String (bluetooth.Address_of result) = Some stored →
       Scan_callback result sd = (sd, []))
  ∧ (∀ (seconds : nat) (r0 : ScanRun) (sd : gmap string Device),
       head (Scan seconds r0 sd).2 = Some {| Level := "INFO"; Msg := "Scanning..." |}
       ∧ (stop_err r0 = None →
          {| Level := "INFO"; Msg := "Stopped Scanning." |} ∈ (Scan seconds r0 sd).2))
  ∧ (∀ (result : bluetooth.ScanResult) (sd : gmap string Device),
       bluetooth.LocalName result = EmptyString →
       Scan_callback result sd = (sd, []))
  ∧ (∀ (seconds : nat) (r0 : ScanRun) (sd : gmap string Device),
       (Scan seconds r0 sd).1 =
         (Scan_goroutine (after r0) (Scan_goroutine (before r0) sd).1).1
       ∧ (Scan seconds r0 sd).2 =
           {| Level := "INFO"; Msg := "Scanning..." |}
             :: (Scan_goroutine (before r0) sd).2
             ++ match stop_err r0 with
                | None => [{| Level := "INFO"; Msg := "Stopped Scanning." |}]
                | Some _ => []
                end
             ++ (Scan_goroutine (after r0) (Scan_goroutine (before r0) sd).1).2)
  ∧ (∀ sd : gmap string Device, Scan_goroutine [] sd = (sd, []))
  ∧ (∀ (ev : ScanEv) (evs : list ScanEv) (sd : gmap string Device),
       Scan_goroutine (ev :: evs) sd =
         let now := match ev with
                    | Discovered result => Scan_callback result sd
                    | Returned (Some err) => (sd, [{| Level := "ERROR"; Msg := err |}])
                    | Returned None => (sd, [])
                    end in
         ((Scan_goroutine evs now.1).1, now.2 ++ (Scan_goroutine evs now.1).2))
  ∧ (∀ (seconds : nat) (r0 : ScanRun) (sd : gmap string Device),
       no_discovery (before r0) → no_discovery (after r0) → stop_err r0 = None →
       (Scan seconds r0 sd).2 =
         {| Level := "INFO"; Msg := "Scanning..." |}
           :: flat_map (λ ev, match ev with
                              | Returned (Some err) => [{| Level := "ERROR"; Msg := err |}]
                              | _ => []
                              end) (before r0)
           ++ [{| Level := "INFO"; Msg := "Stopped Scanning." |}]
           ++ flat_map (λ ev, match ev with
                              | Returned (Some err) => [{| Level := "ERROR"; Msg := err |}]
                              | _ => []
                              end) (after r0)).
Proof.
  split; [|split; [|split; [|split; [|split; [|split; [|split; [|split; [|split]]]]]]]].
  - intros seconds r0 sd Hb Ha Hs. unfold Scan. rewrite Hs. cbn [fst snd].
    destruct (Scan_goroutine_no_discovery (before r0) sd Hb) as [E1 F1]. rewrite E1.
    destruct (Scan_goroutine_no_discovery (after r0) sd Ha) as [E2 F2].
    split_and!; [done| |].
    + rewrite filter_cons_True by done.
      rewrite filter_app, (filter_all_error _ F1). cbn [app].
      rewrite filter_cons_True by done.
      by rewrite (filter_all_error _ F2).
    + constructor; [done|]. apply Forall_app. split.
      * eapply Forall_impl; [exact F1|]. intros l ->. done.
      * constructor; [done|]. eapply Forall_impl; [exact F2|]. intros l ->. done.
  - intros seconds sd. reflexivity.
  - intros result sd Hn Hd. unfold Scan_callback.
    rewrite bool_decide_eq_false_2 by done.
    by rewrite (Exists_false _ _ Hd).
  - intros result sd stored Hd. unfold Scan_callback.
    case_bool_decide; [done|]. by rewrite (Exists_true _ _ _ Hd).
  - intros seconds r0 sd. split; [done|]. intros Hs. unfold Scan. rewrite Hs. cbn [snd].
    apply elem_of_cons. right. apply elem_of_app. right.
    apply elem_of_cons. by left.
  - intros result sd Hn. unfold Scan_callback. by rewrite bool_decide_eq_true_2.
  - intros seconds r0 sd. split; [reflexivity|]. unfold Scan. cbn [snd].
    by destruct (stop_err r0).
  - reflexivity.
  - intros ev evs sd. cbn [Scan_goroutine]. by destruct ev as [result|[err|]].
  - intros seconds r0 sd Hb Ha Hs. unfold Scan. rewrite Hs. cbn [snd].
    rewrite (Scan_goroutine_errors (before r0) sd Hb).
    by rewrite (Scan_goroutine_errors (after r0) _ Ha).
Qed.

Lemma Scan_cases_witness :
  ((Scan 1 {| before := [Returned (Some "scan already in progress")];
              stop_err := None; after := [] |} Devices).1 = Devices
   ∧ filter (λ l, Level l ≠ "ERROR")
       (Scan 1 {| before := [Returned (Some "scan already in progress")];
                  stop_err := None; after := [] |} Devices).2 =
       [{| Level := "INFO"; Msg := "Scanning..." |};
        {| Level := "INFO"; Msg := "Stopped Scanning." |}]
   ∧ Forall (λ l, Level l ≠ "DEVICE")
       (Scan 1 {| before := [Returned (Some "scan already in progress")];
                  stop_err := None; after := [] |} Devices).2)
  ∧ Scan_callback {| bluetooth.Address_of := bluetooth.MkAddress "AA:BB";
                     bluetooth.LocalName := "Lamp" |} Devices =
      (<["AA:BB" := {| Name := "Lamp"; Address := bluetooth.MkAddress "AA:BB" |}]> Devices,
       [{| Level := "DEVICE"; Msg := "AA:BB;Lamp" |}])
  ∧ Scan_callback {| bluetooth.Address_of := bluetooth.MkAddress "AA:BB";
                     bluetooth.LocalName := "Plug" |}
                  (Add {| Name := "Lamp"; Address := bluetooth.MkAddress "AA:BB" |} Devices) =
      (Add {| Name := "Lamp"; Address := bluetooth.MkAddress "AA:BB" |} Devices, [])
  ∧ Scan_callback {| bluetooth.Address_of := bluetooth.MkAddress "AA:BB";
                     bluetooth.LocalName := EmptyString |} Devices = (Devices, [])
  ∧ (Scan 1 {| before := [Returned (Some "scan already in progress")];
               stop_err := None; after := [Returned (Some "late")] |} Devices).2 =
      {| Level := "INFO"; Msg := "Scanning..." |}
        :: flat_map (λ ev, match ev with
                           | Returned (Some err) => [{| Level := "ERROR"; Msg := err |}]
                           | _ => []
                           end) [Returned (Some "scan already in progress")]
        ++ [{| Level := "INFO"; Msg := "Stopped Scanning." |}]
        ++ flat_map (λ ev, match ev with
                           | Returned (Some err) => [{| Level := "ERROR"; Msg := err |}]
                           | _ => []
                           end) [Returned (Some "late")].
Proof.
  destruct Scan_cases as (H1 & _ & H3 & H4 & _ & H6 & _ & _ & _ & H10).
  split; [|split; [|split; [|split]]].
  - apply H1; [repeat constructor|constructor|reflexivity].
  - apply (H3 {| bluetooth.Address_of := bluetooth.MkAddress "AA:BB";
                 bluetooth.LocalName := "Lamp" |} Devices); [discriminate|reflexivity].
  - apply (H4 {| bluetooth.Address_of := bluetooth.MkAddress "AA:BB";
                 bluetooth.LocalName := "Plug" |} _
              {| Name := "Lamp"; Address := bluetooth.MkAddress "AA:BB" |}).
    reflexivity.
  - apply (H6 {| bluetooth.Address_of := bluetooth.MkAddress "AA:BB";
                 bluetooth.LocalName := EmptyString |} Devices). reflexivity.
  - apply (H10 1 {| before := [Returned (Some "scan already in progress")];
                    stop_err := None; after := [Returned (Some "late")] |} Devices);
      [repeat constructor|repeat constructor|reflexivity].
Defined.

(** ** Opening an event stream *)

Lemma drain_empty {A} (ch : list A) : drain ch = [].
Proof. induction ch as [|x ch IH]; [reflexivity|exact IH]. Qed.

(** C7. The handler of a newly opened stream, run on its own up to the point
    where it waits: it leaves both channel buffers empty, whatever they held
    and whoever it was meant for; the new subscriber is then the last of the
    Client Registry, the earlier ones untouched; and after that it sends one
    DEVICE entry per device of the Device Registry, each with the message
    address + [;] + name, in the order of the traversal. *)
Theorem GetEventsHandler_purge_register_replay
    (id0 : N) (w0 r0 : nat) (order : list (string * Device)) (s : Server) :
  ForEach_order (registry s) order →
  ∃ out : list Log,
    GetEventsHandler id0 w0 r0 order s =
      Some ({| logs := []; eventQueue := [];
               clients := clients s ++ [{| id := id0; w := w0; r := r0 |}];
               registry := registry s |}, out)
    ∧ out ≡ₚ map (λ kv, {| Level := "DEVICE";
                           Msg := bluetooth.Address_String (Address kv.2)
                                    +:+ ";" +:+ Name kv.2 |})
                 (map_to_list (registry s))
    ∧ length out = size (registry s).
Proof.
  intros Ho. unfold GetEventsHandler.
  rewrite Flush_new_client, !drain_empty. eexists. split; [reflexivity|].
  unfold ForEach_order in Ho. unfold ForEach. split.
  - rewrite Ho. reflexivity.
  - rewrite length_map, Ho. by rewrite length_map_to_list.
Qed.

Lemma GetEventsHandler_purge_register_replay_witness :
  ∃ out : list Log,
    GetEventsHandler 77 1 1
      [("AA:BB", {| Name := "Lamp"; Address := bluetooth.MkAddress "AA:BB" |})]
      {| logs := [LogInfo ["Scanning..."]; LogError ["stale"]];
         eventQueue := [{| Type_ := "SCAN"; Data := EmptyString |}];
         clients := [{| id := 5; w := 0; r := 0 |}];
         registry := Add {| Name := "Lamp"; Address := bluetooth.MkAddress "AA:BB" |}
                         Devices |} =
      Some ({| logs := []; eventQueue := [];
               clients := [{| id := 5; w := 0; r := 0 |}] ++ [{| id := 77; w := 1; r := 1 |}];
               registry := Add {| Name := "Lamp"; Address := bluetooth.MkAddress "AA:BB" |}
                               Devices |}, out)
    ∧ out ≡ₚ map (λ kv, {| Level := "DEVICE";
                           Msg := bluetooth.Address_String (Address kv.2)
                                    +:+ ";" +:+ Name kv.2 |})
                 (map_to_list (Add {| Name := "Lamp"; Address := bluetooth.MkAddress "AA:BB" |}
                                   Devices))
    ∧ length out = size (Add {| Name := "Lamp"; Address := bluetooth.MkAddress "AA:BB" |}
                             Devices).
Proof.
  apply (GetEventsHandler_purge_register_replay 77 1 1
           [("AA:BB", {| Name := "Lamp"; Address := bluetooth.MkAddress "AA:BB" |})]
           {| logs := [LogInfo ["Scanning..."]; LogError ["stale"]];
              eventQueue := [{| Type_ := "SCAN"; Data := EmptyString |}];
              clients := [{| id := 5; w := 0; r := 0 |}];
              registry := Add {| Name := "Lamp"; Address := bluetooth.MkAddress "AA:BB" |}
                              Devices |}).
  unfold ForEach_order. vm_compute. reflexivity.
Defined.

(** ** Order of delivery *)

Lemma BroadcastLog_range_frames (l : string) (env : Env) (todo i : nat)
    (arr : list Client) (len : nat) :
  Forall (λ d, d.2 = l) (BroadcastLog_range l env todo i arr len).2.
Proof.
  revert i arr len. induction todo as [|todo IH]; intros i arr len; cbn [BroadcastLog_range].
  - constructor.
  - destruct (arr !! i) as [client|]; [|constructor].
    destruct (write_err env i).
    + destruct (evict i arr len) as [[arr' len']|]; [apply IH|constructor].
    + destruct (ctx_done env i).
      * destruct (evict i arr len) as [[arr' len']|]; cbn [snd].
        -- constructor; [reflexivity|apply IH].
        -- by repeat constructor.
      * cbn [snd]. constructor; [reflexivity|apply IH].
Qed.

Lemma BroadcastLog_frames (l : string) (env : Env) (sc : list Client) :
  Forall (λ d, d.2 = l) (BroadcastLog l env sc).2.
Proof. unfold BroadcastLog. cbn [snd]. apply BroadcastLog_range_frames. Qed.

(** With every write succeeding and no request cancelled, each subscriber
    gets the frame once and the registry is unchanged. *)
Example BroadcastLog_quiet :
  BroadcastLog "f" quiet
    [{| id := 1; w := 10; r := 10 |}; {| id := 2; w := 20; r := 20 |};
     {| id := 3; w := 30; r := 30 |}] =
    (Some [{| id := 1; w := 10; r := 10 |}; {| id := 2; w := 20; r := 20 |};
           {| id := 3; w := 30; r := 30 |}],
     [(10, "f"); (20, "f"); (30, "f")]).
Proof. reflexivity. Qed.

(** An eviction moves the later subscribers one cell down under the running
    loop: after the first of three is evicted for a failed write, the loop
    passes over the second and reads the third twice. *)
Example BroadcastLog_evict_first :
  BroadcastLog "f" {| write_err := λ i, bool_decide (i = 0); ctx_done := λ _, false |}
    [{| id := 1; w := 10; r := 10 |}; {| id := 2; w := 20; r := 20 |};
     {| id := 3; w := 30; r := 30 |}] =
    (Some [{| id := 2; w := 20; r := 20 |}; {| id := 3; w := 30; r := 30 |}],
     [(30, "f"); (30, "f")]).
Proof. reflexivity. Qed.

Lemma filter_frames (w0 : nat) (frame : string) (out : list (nat * string)) :
  Forall (λ d, d.2 = frame) out →
  (filter (λ d, d.1 = w0) out).*2 =
    replicate (length (filter (λ d, d.1 = w0) out)) frame.
Proof.
  induction 1 as [|d out Hd _ IH]; [reflexivity|].
  destruct (decide (d.1 = w0)) as [E|E].
  - rewrite filter_cons_True by done. cbn. by rewrite Hd, IH.
  - by rewrite filter_cons_False.
Qed.

Lemma step_inv (c : Choice) (s s' : Sys) (o : Obs) :
  step c s = Some (s', o) →
  match o with
  | Enqueued l => chan s' = chan s ++ [l] ∧ tasks s' = tasks s
  | Started l => chan s = l :: chan s' ∧ tasks s' = tasks s ++ [LogToSSE l]
  | Purged l => chan s = l :: chan s' ∧ tasks s' = tasks s
  | Ran frame out =>
      chan s' = chan s
      ∧ (∃ k, tasks s !! k = Some frame ∧ tasks s' = delete k (tasks s))
      ∧ Forall (λ d, d.2 = frame) out
  | Registered _ | Unregistered _ => chan s' = chan s ∧ tasks s' = tasks s
  end.
Proof.
  unfold step. destruct (crashed s); [discriminate|].
  destruct c as [l| | |k env|c|id0].
  - case_decide; [|discriminate]. intros [= <- <-]. done.
  - destruct (chan s) as [|l q] eqn:E; [discriminate|]. intros [= <- <-]. done.
  - destruct (chan s) as [|l q] eqn:E; [discriminate|]. intros [= <- <-]. done.
  - destruct (tasks s !! k) as [frame|] eqn:E; [|discriminate].
    intros [= <- <-]. split_and!.
    + by repeat case_match.
    + exists k. split; [done|]. by repeat case_match.
    + exact (BroadcastLog_frames frame env (subs s)).
  - intros [= <- <-]. done.
  - intros [= <- <-]. done.
Qed.

Lemma replay_history (cs : list Choice) (s0 s : Sys) (os : list Obs) :
  replay cs s0 = Some (s, os) →
  chan s0 ++ enqueued os = received_from_chan os ++ chan s
  ∧ sublist (started os) (LogToSSE <$> received_from_chan os)
  ∧ ran os ++ tasks s ≡ₚ tasks s0 ++ started os
  ∧ ∀ w0, follows (ran os) (received w0 os).
Proof.
  revert s0 s os. induction cs as [|c cs IH]; intros s0 s os; cbn [replay].
  - intros [= <- <-]. cbn. rewrite !app_nil_r. split_and!; [done|done|done|].
    intros w0. by exists [].
  - destruct (step c s0) as [[s1 o]|] eqn:Hstep; [|discriminate].
    destruct (replay cs s1) as [[s2 os']|] eqn:Hr; [|discriminate].
    intros [= <- <-]. apply step_inv in Hstep.
    destruct (IH _ _ _ Hr) as (IH1 & IH2 & IH3 & IH4). clear IH Hr.
    unfold enqueued, received_from_chan, started, ran, received in *.
    destruct o as [l|l|l|frame out|c'|id0]; cbn [flat_map app fmap list_fmap].
    + destruct Hstep as [E1 E2]. rewrite E1, E2 in *.
      split_and!; [|done|done|done]. by rewrite <- IH1, <- app_assoc.
    + destruct Hstep as [E1 E2]. rewrite E1, E2 in *.
      split_and!; [| |by rewrite IH3, <- app_assoc|done].
      * cbn. by rewrite IH1.
      * by apply sublist_skip.
    + destruct Hstep as [E1 E2]. rewrite E1, E2 in *.
      split_and!; [| |done|done].
      * cbn. by rewrite IH1.
      * by apply sublist_cons.
    + destruct Hstep as (E1 & (k & Hk & E2) & Hout). rewrite E1, E2 in *.
      split_and!; [done|done| |].
      * rewrite (delete_Permutation (tasks s0) k frame Hk) at 1.
        cbn. by rewrite IH3.
      * intros w0. destruct (IH4 w0) as (ks & Hlen & E).
        exists (length (filter (λ d, d.1 = w0) out) :: ks). split; [cbn; by rewrite Hlen|].
        cbn [zip_with concat]. rewrite <- E. by rewrite (filter_frames w0 frame out Hout).
    + destruct Hstep as [E1 E2]. rewrite E1, E2 in *. done.
    + destruct Hstep as [E1 E2]. rewrite E1, E2 in *. done.
Qed.

Lemma replay_oldest_first (cs : list Choice) (s0 s : Sys) (os : list Obs) :
  replay cs s0 = Some (s, os) → oldest_first cs →
  ran os ++ tasks s = tasks s0 ++ started os.
Proof.
  revert s0 s os. induction cs as [|c cs IH]; intros s0 s os; cbn [replay].
  - intros [= <- <-] _. cbn. by rewrite app_nil_r.
  - destruct (step c s0) as [[s1 o]|] eqn:Hstep; [|discriminate].
    destruct (replay cs s1) as [[s2 os']|] eqn:Hr; [|discriminate].
    intros [= <- <-] Hall. apply Forall_cons in Hall as [Hc Hall].
    specialize (IH _ _ _ Hr Hall). clear Hr Hall.
    unfold step in Hstep. destruct (crashed s0); [discriminate|].
    unfold started, ran in *.
    destruct c as [l| | |k env|c|id0].
    + case_decide; [|discriminate]. injection Hstep as <- <-. exact IH.
    + destruct (chan s0) as [|l q]; [discriminate|]. injection Hstep as <- <-.
      cbn in *. by rewrite IH, <- app_assoc.
    + destruct (chan s0) as [|l q]; [discriminate|]. injection Hstep as <- <-. exact IH.
    + subst k. destruct (tasks s0) as [|frame q] eqn:E; [discriminate|].
      cbn in Hstep. injection Hstep as <- <-.
      cbn [flat_map app]. rewrite IH. by repeat case_match.
    + injection Hstep as <- <-. exact IH.
    + injection Hstep as <- <-. exact IH.
Qed.

(** C2, as stated, fails: with two entries in the channel, the broadcast
    started for the second may take the registry lock before the one started
    for the first, and a subscriber registered throughout then receives the
    second frame first. *)
Lemma newer_frame_overtakes :
  ¬ (∀ (cs : list Choice) (s0 s : Sys) (os : list Obs) (L1 L2 : Log) (c : Client)
       (i j : nat),
       replay cs s0 = Some (s, os) →
       tasks s0 = [] → chan s0 = [L1; L2] → LogToSSE L1 ≠ LogToSSE L2 →
       c ∈ subs s0 → c ∈ subs s →
       received (w c) os !! i = Some (LogToSSE L1) →
       received (w c) os !! j = Some (LogToSSE L2) →
       i < j).
Proof.
  intros H.
  pose (L1 := {| Level := "INFO"; Msg := "Scanning..." |}).
  pose (L2 := {| Level := "INFO"; Msg := "Stopped Scanning." |}).
  pose (c := {| id := 1; w := 1; r := 1 |}).
  pose (s0 := {| chan := [L1; L2]; tasks := []; subs := [c]; crashed := false |}).
  destruct (replay [Dequeue; Dequeue; RunTask 1 quiet; RunTask 0 quiet] s0)
    as [[s os]|] eqn:E; [|discriminate E].
  specialize (H _ s0 s os L1 L2 c 1 0 E eq_refl eq_refl ltac:(discriminate)).
  vm_compute in E. injection E as <- <-.
  specialize (H ltac:(by apply list_elem_of_singleton)
                ltac:(by apply list_elem_of_singleton) eq_refl eq_refl).
  lia.
Qed.

(** C2, amended.  The entries leave the channel in the order they entered it,
    and the broadcasts are started in that order, one per entry that is not
    purged; each started broadcast runs once, but they take the registry lock
    in any order.  Every subscriber receives frames in the order in which the
    broadcasts ran, one order for all subscribers: what a subscriber has
    received is that sequence with each frame taken some number of times (not
    at all when it was not registered or was passed over, more than once only
    within one broadcast).  When the oldest started broadcast always runs
    first, that order is the order in which the entries were enqueued. *)
Theorem broadcast_order (cs : list Choice) (s0 s : Sys) (os : list Obs) :
  replay cs s0 = Some (s, os) → tasks s0 = [] →
  chan s0 ++ enqueued os = received_from_chan os ++ chan s
  ∧ sublist (started os) (LogToSSE <$> received_from_chan os)
  ∧ ran os ++ tasks s ≡ₚ started os
  ∧ (∀ w0 : nat, follows (ran os) (received w0 os))
  ∧ (oldest_first cs → ran os ++ tasks s = started os).
Proof.
  intros Hr Ht.
  destruct (replay_history cs s0 s os Hr) as (H1 & H2 & H3 & H4).
  rewrite Ht in H3. split_and!; [done|done|done|done|].
  intros Ho. rewrite (replay_oldest_first cs s0 s os Hr Ho). by rewrite Ht.
Qed.

Lemma broadcast_order_witness :
  match replay [Enqueue {| Level := "ERROR"; Msg := "Could not find the device." |};
                Dequeue; Dequeue; RunTask 1 quiet;
                Register {| id := 2; w := 2; r := 2 |}; RunTask 0 quiet]
               {| chan := [{| Level := "INFO"; Msg := "Scanning..." |}];
                  tasks := [];
                  subs := [{| id := 1; w := 1; r := 1 |}];
                  crashed := false |}
  with
  | Some (s, os) =>
      ran os ++ tasks s ≡ₚ started os
      ∧ (∀ w0 : nat, follows (ran os) (received w0 os))
  | None => False
  end.
Proof.
  destruct (replay _ _) as [[s os]|] eqn:E.
  - destruct (broadcast_order _ _ s os E eq_refl) as (_ & _ & H3 & H4 & _).
    split; [exact H3|exact H4].
  - vm_compute in E. discriminate E.
Defined.

(** * Further properties of the code *)

(** ** Client Registry *)

Lemma RemoveClient_missing (id0 : N) (sc : list Client) :
  id0 ∉ id <$> sc → RemoveClient id0 sc = sc.
Proof.
  induction sc as [|c sc IH]; intros H; cbn [RemoveClient]; [done|].
  rewrite fmap_cons in H. apply not_elem_of_cons in H as [H1 H2].
  rewrite bool_decide_eq_false_2 by done. by rewrite IH.
Qed.

Lemma RemoveClient_present (id0 : N) (sc : list Client) :
  id0 ∈ id <$> sc →
  ∃ (pre post : list Client) (c : Client),
    sc = pre ++ c :: post ∧ id c = id0 ∧ (id0 ∉ id <$> pre)
    ∧ RemoveClient id0 sc = pre ++ post.
Proof.
  induction sc as [|c sc IH]; intros H; [by apply elem_of_nil in H|].
  cbn [RemoveClient]. case_bool_decide as E.
  - exists [], sc, c. split_and!; [done|done|apply not_elem_of_nil|done].
  - rewrite fmap_cons in H. apply elem_of_cons in H as [H|H]; [done|].
    destruct (IH H) as (pre & post & c' & -> & Hc & Hpre & ->).
    exists (c :: pre), post, c'. split_and!; [done|done| |done].
    rewrite fmap_cons. apply not_elem_of_cons. split; [done|done].
Qed.

(** X1. [RemoveClient] leaves the registry as it is when no client has the
    id; otherwise it cuts out exactly the first client with that id and keeps
    the others in order.  When the ids are pairwise distinct, no client with
    the id is left, and removing it once more changes nothing. *)
Theorem RemoveClient_cases (id0 : N) (sc : list Client) :
  (id0 ∉ id <$> sc → RemoveClient id0 sc = sc)
  ∧ (id0 ∈ id <$> sc →
     ∃ (pre post : list Client) (c : Client),
       sc = pre ++ c :: post ∧ id c = id0 ∧ (id0 ∉ id <$> pre)
       ∧ RemoveClient id0 sc = pre ++ post)
  ∧ (NoDup (id <$> sc) →
     (id0 ∉ id <$> RemoveClient id0 sc)
     ∧ RemoveClient id0 (RemoveClient id0 sc) = RemoveClient id0 sc).
Proof.
  split_and!.
  - apply RemoveClient_missing.
  - apply RemoveClient_present.
  - intros Hnd.
    assert (id0 ∉ id <$> RemoveClient id0 sc) as Hout.
    { destruct (decide (id0 ∈ id <$> sc)) as [Hin|Hin].
      - destruct (RemoveClient_present id0 sc Hin) as (pre & post & c & -> & Hc & Hpre & ->).
        rewrite fmap_app, fmap_cons in Hnd. apply NoDup_app in Hnd as (_ & Hd & Hnd).
        apply NoDup_cons in Hnd as [Hc' _]. rewrite Hc in Hc'.
        rewrite fmap_app. intros [H|H]%elem_of_app; [by apply Hpre|by apply Hc'].
      - by rewrite RemoveClient_missing. }
    split; [done|]. by apply RemoveClient_missing.
Qed.

Lemma RemoveClient_cases_witness :
  RemoveClient 7 [{| id := 1; w := 10; r := 10 |}; {| id := 2; w := 20; r := 20 |}] =
    [{| id := 1; w := 10; r := 10 |}; {| id := 2; w := 20; r := 20 |}]
  ∧ (2%N ∉ id <$> RemoveClient 2 [{| id := 1; w := 10; r := 10 |};
                                   {| id := 2; w := 20; r := 20 |}]).
Proof.
  split.
  - apply (proj1 (RemoveClient_cases 7 _)).
    apply (bool_decide_unpack _). vm_compute. exact I.
  - apply (proj2 (proj2 (RemoveClient_cases 2 _))).
    apply (bool_decide_unpack _). vm_compute. exact I.
Defined.

(** X2. A stream that is opened and closed again, with an id that no
    registered client has, leaves the Client Registry as it was before it was
    opened; with an id that a registered client already has, closing removes
    that earlier client and the new one stays registered. *)
Theorem GetEventsHandler_open_close
    (id0 : N) (w0 r0 : nat) (order : list (string * Device)) (s : Server) :
  (id0 ∉ id <$> clients s →
   (λ so, clients (GetEventsHandler_done id0 so.1)) <$> GetEventsHandler id0 w0 r0 order s
     = Some (clients s))
  ∧ (∀ (pre post : list Client) (c : Client),
       clients s = pre ++ c :: post → id c = id0 → id0 ∉ id <$> pre →
       (λ so, clients (GetEventsHandler_done id0 so.1)) <$> GetEventsHandler id0 w0 r0 order s
         = Some (pre ++ post ++ [{| id := id0; w := w0; r := r0 |}])).
Proof.
  unfold GetEventsHandler. rewrite Flush_new_client. cbn [fmap option_fmap option_map fst].
  unfold GetEventsHandler_done, AddClient. cbn [clients]. split.
  - intros H. f_equal.
    destruct (RemoveClient_present id0 (clients s ++ [{| id := id0; w := w0; r := r0 |}]))
      as (pre & post & c & E & Hc & Hpre & ->).
    { rewrite fmap_app. apply elem_of_app. right. by apply list_elem_of_singleton. }
    destruct post as [|c' post _] using rev_ind.
    + apply app_inj_tail in E as [-> _]. by rewrite app_nil_r.
    + rewrite app_comm_cons, app_assoc in E. apply app_inj_tail in E as [E _].
      exfalso. apply H. rewrite E, fmap_app, fmap_cons.
      apply elem_of_app. right. rewrite Hc. by left.
  - intros pre post c E Hc Hpre. f_equal. rewrite E.
    destruct (RemoveClient_present id0 ((pre ++ c :: post) ++ [{| id := id0; w := w0; r := r0 |}]))
      as (pre' & post' & c' & E' & Hc' & Hpre' & ->).
    { rewrite !fmap_app, fmap_cons. apply elem_of_app. left. apply elem_of_app. right.
      rewrite Hc. by left. }
    rewrite <- app_assoc in E'. cbn [app] in E'.
    assert (pre' = pre ∧ post' = post ++ [{| id := id0; w := w0; r := r0 |}]) as [-> ->]; [|done].
    clear -E' Hc Hc' Hpre Hpre'. revert pre' E' Hpre'.
    induction pre as [|p pre IH]; intros [|p' pre'] E' Hpre'; cbn [app] in E'.
    + by injection E' as -> ->.
    + injection E' as -> E'. exfalso. apply Hpre'. rewrite fmap_cons, Hc. by left.
    + injection E' as -> E'. exfalso. apply Hpre. rewrite fmap_cons, Hc'. by left.
    + injection E' as -> E'.
      rewrite fmap_cons in Hpre, Hpre'.
      apply not_elem_of_cons in Hpre as [_ Hpre]. apply not_elem_of_cons in Hpre' as [_ Hpre'].
      by destruct (IH Hpre pre' E' Hpre') as [-> ->].
Qed.

Lemma GetEventsHandler_open_close_witness :
  (λ so, clients (GetEventsHandler_done 77 so.1)) <$>
    GetEventsHandler 77 1 1 []
      {| logs := []; eventQueue := [];
         clients := [{| id := 5; w := 0; r := 0 |}]; registry := Devices |}
    = Some [{| id := 5; w := 0; r := 0 |}].
Proof.
  apply (proj1 (GetEventsHandler_open_close 77 1 1 []
                  {| logs := []; eventQueue := [];
                     clients := [{| id := 5; w := 0; r := 0 |}]; registry := Devices |})).
  apply (bool_decide_unpack _). vm_compute. exact I.
Defined.

(** ** One broadcast *)

Lemma evict_None (i : nat) (arr : list Client) (len : nat) :
  len ≤ i → evict i arr len = None.
Proof. intros H. unfold evict. case_decide; [lia|done]. Qed.

Lemma evict_Some (i : nat) (arr : list Client) (len : nat) :
  i < len → len ≤ length arr →
  ∃ arr', evict i arr len = Some (arr', len - 1)
          ∧ length arr' = length arr
          ∧ take (len - 1) arr' = delete i (take len arr)
          ∧ ∀ x, x ∈ arr' → x ∈ arr.
Proof.
  intros Hi Hlen. unfold evict. case_decide; [|lia].
  eexists. split; [reflexivity|]. split_and!.
  - rewrite !length_app, !length_take, !length_drop. lia.
  - rewrite app_assoc, take_app_length'.
    + rewrite delete_take_drop, take_take, skipn_firstn_comm.
      by rewrite Nat.min_l, Nat.add_1_r by lia.
    + rewrite length_app, !length_take, length_drop. lia.
  - intros x [Hx|[Hx|Hx]%elem_of_app]%elem_of_app.
    + eapply elem_of_sublist; [exact Hx|apply sublist_take].
    + eapply elem_of_sublist; [exact Hx|].
      etrans; [apply sublist_take|apply sublist_drop].
    + eapply elem_of_sublist; [exact Hx|apply sublist_drop].
Qed.

Lemma range_keep (l : string) (env : Env) (todo i : nat) (arr : list Client)
    (len : nat) (c : Client) :
  arr !! i = Some c → evicts env i = false →
  BroadcastLog_range l env (S todo) i arr len =
    ((BroadcastLog_range l env todo (S i) arr len).1,
     (w c, l) :: (BroadcastLog_range l env todo (S i) arr len).2).
Proof.
  intros Hc He. apply orb_false_elim in He as [E1 E2].
  cbn [BroadcastLog_range]. by rewrite Hc, E1, E2.
Qed.

Lemma range_evict_panic (l : string) (env : Env) (todo i : nat) (arr : list Client)
    (len : nat) :
  i < length arr → evicts env i = true → len ≤ i →
  (BroadcastLog_range l env (S todo) i arr len).1 = None.
Proof.
  intros Hi He Hlen. apply lookup_lt_is_Some_2 in Hi as [c Hc].
  cbn [BroadcastLog_range]. rewrite Hc, (evict_None i arr len Hlen).
  unfold evicts in He. destruct (write_err env i); [done|].
  cbn [orb] in He. by rewrite He.
Qed.

Lemma range_evict (l : string) (env : Env) (todo i : nat) (arr : list Client)
    (len : nat) :
  i < len → len ≤ length arr → evicts env i = true →
  ∃ arr', length arr' = length arr
          ∧ take (len - 1) arr' = delete i (take len arr)
          ∧ (∀ x, x ∈ arr' → x ∈ arr)
          ∧ (BroadcastLog_range l env (S todo) i arr len).1 =
              (BroadcastLog_range l env todo (S i) arr' (len - 1)).1.
Proof.
  intros Hi Hlen He.
  destruct (evict_Some i arr len Hi Hlen) as (arr' & E & H1 & H2 & H3).
  exists arr'. split_and!; [done|done|done|].
  destruct (lookup_lt_is_Some_2 arr i) as [c Hc]; [lia|].
  cbn [BroadcastLog_range]. rewrite Hc, E.
  unfold evicts in He. destruct (write_err env i); [done|].
  cbn [orb] in He. by rewrite He.
Qed.

Lemma range_quiet (l : string) (env : Env) (todo i : nat) (arr : list Client) (len : nat) :
  i + todo ≤ length arr →
  (∀ j, i ≤ j < i + todo → evicts env j = false) →
  BroadcastLog_range l env todo i arr len =
    (Some (arr, len), (λ c, (w c, l)) <$> take todo (drop i arr)).
Proof.
  revert i. induction todo as [|todo IH]; intros i Hlen Hq.
  - by rewrite take_0.
  - destruct (lookup_lt_is_Some_2 arr i) as [c Hc]; [lia|].
    rewrite (range_keep l env todo i arr len c Hc) by (apply Hq; lia).
    rewrite IH by (try lia; intros j Hj; apply Hq; lia).
    by rewrite (drop_S arr c i Hc).
Qed.

(** X3. A broadcast in which no write fails and no request is cancelled
    leaves the Client Registry exactly as it was and writes the frame once to
    every client, in registry order. *)
Theorem BroadcastLog_no_eviction (l : string) (env : Env) (sc : list Client) :
  (∀ i, i < length sc → evicts env i = false) →
  BroadcastLog l env sc = (Some sc, (λ c, (w c, l)) <$> sc).
Proof.
  intros Hq. unfold BroadcastLog.
  rewrite range_quiet by (try (cbn; lia); intros j Hj; apply Hq; lia).
  cbn [fst snd drop]. by rewrite !firstn_all.
Qed.

Lemma BroadcastLog_no_eviction_witness :
  BroadcastLog "f" {| write_err := λ i, bool_decide (i = 5); ctx_done := λ _, false |}
    [{| id := 1; w := 10; r := 10 |}; {| id := 2; w := 20; r := 20 |}] =
    (Some [{| id := 1; w := 10; r := 10 |}; {| id := 2; w := 20; r := 20 |}],
     (λ c, (w c, "f")) <$> [{| id := 1; w := 10; r := 10 |}; {| id := 2; w := 20; r := 20 |}]).
Proof.
  apply (BroadcastLog_no_eviction "f").
  intros i Hi. unfold evicts. cbn [write_err ctx_done].
  rewrite bool_decide_eq_false_2; [reflexivity|]. cbn in Hi. lia.
Defined.

Lemma range_single (l : string) (env : Env) (todo i i0 : nat) (arr : list Client)
    (len : nat) :
  i ≤ i0 < i + todo → i + todo ≤ length arr → len ≤ length arr → i0 < len →
  evicts env i0 = true →
  (∀ j, i ≤ j < i + todo → j ≠ i0 → evicts env j = false) →
  ∃ arr', (BroadcastLog_range l env todo i arr len).1 = Some (arr', len - 1)
          ∧ take (len - 1) arr' = delete i0 (take len arr).
Proof.
  revert i. induction todo as [|todo IH]; intros i Hi Harr Hlen Hi0 He Hq; [lia|].
  destruct (decide (i = i0)) as [->|Hne].
  - destruct (range_evict l env todo i0 arr len Hi0 Hlen He) as (arr' & L & T & _ & ->).
    exists arr'. split; [|done].
    rewrite range_quiet; [done|lia|]. intros j Hj. apply Hq; lia.
  - destruct (lookup_lt_is_Some_2 arr i) as [c Hc]; [lia|].
    rewrite (range_keep l env todo i arr len c Hc) by (apply Hq; lia).
    cbn [fst]. apply IH; [lia|lia|lia|lia|done|]. intros j Hj. apply Hq. lia.
Qed.

(** X4. When exactly one iteration of a broadcast evicts (a failed write, or
    a cancelled request), the broadcast ends without a panic and the Client
    Registry afterwards is the one before without the client at that
    position. *)
Theorem BroadcastLog_single_eviction (l : string) (env : Env) (sc : list Client)
    (i0 : nat) :
  i0 < length sc → evicts env i0 = true →
  (∀ j, j < length sc → j ≠ i0 → evicts env j = false) →
  (BroadcastLog l env sc).1 = Some (delete i0 sc).
Proof.
  intros Hi He Hq. unfold BroadcastLog. cbn [fst].
  destruct (range_single l env (length sc) 0 i0 sc (length sc)) as (arr' & -> & T);
    [lia|cbn; lia|lia|lia|done| |].
  - intros j Hj. apply Hq. lia.
  - by rewrite T, firstn_all.
Qed.

Lemma BroadcastLog_single_eviction_witness :
  (BroadcastLog "f" {| write_err := λ i, bool_decide (i = 1); ctx_done := λ _, false |}
     [{| id := 1; w := 10; r := 10 |}; {| id := 2; w := 20; r := 20 |};
      {| id := 3; w := 30; r := 30 |}]).1 =
    Some (delete 1 [{| id := 1; w := 10; r := 10 |}; {| id := 2; w := 20; r := 20 |};
                    {| id := 3; w := 30; r := 30 |}]).
Proof.
  apply (BroadcastLog_single_eviction "f"); [cbn; lia|reflexivity|].
  intros j _ Hj. unfold evicts. cbn [write_err ctx_done].
  by rewrite bool_decide_eq_false_2.
Defined.

Lemma evict_inv (i : nat) (arr : list Client) (len : nat) (arr' : list Client)
    (len' : nat) :
  evict i arr len = Some (arr', len') → len ≤ length arr →
  i < len ∧ len' = len - 1 ∧ length arr' = length arr
  ∧ take len' arr' = delete i (take len arr).
Proof.
  intros E Hlen.
  assert (i < len) as Hi.
  { unfold evict in E. case_decide; [lia|discriminate]. }
  destruct (evict_Some i arr len Hi Hlen) as (arr'' & E' & H1 & H2 & _).
  rewrite E' in E. injection E as <- <-. done.
Qed.

Lemma evict_elem (i : nat) (arr : list Client) (len : nat) (arr' : list Client)
    (len' : nat) (x : Client) :
  evict i arr len = Some (arr', len') → x ∈ arr' → x ∈ arr.
Proof.
  unfold evict. case_decide; [|discriminate]. intros [= <- <-].
  intros [Hx|[Hx|Hx]%elem_of_app]%elem_of_app.
  - eapply elem_of_sublist; [exact Hx|apply sublist_take].
  - eapply elem_of_sublist; [exact Hx|].
    etrans; [apply sublist_take|apply sublist_drop].
  - eapply elem_of_sublist; [exact Hx|apply sublist_drop].
Qed.

Lemma range_writes (l : string) (env : Env) (todo i : nat) (arr : list Client)
    (len : nat) :
  Forall (λ d, ∃ c, c ∈ arr ∧ d = (w c, l)) (BroadcastLog_range l env todo i arr len).2.
Proof.
  revert i arr len. induction todo as [|todo IH]; intros i arr len; cbn [BroadcastLog_range].
  - constructor.
  - destruct (arr !! i) as [c|] eqn:Hc; [|constructor].
    assert (c ∈ arr) as Hin by (by eapply list_elem_of_lookup_2).
    assert (∀ arr' len', evict i arr len = Some (arr', len') →
            Forall (λ d, ∃ c, c ∈ arr ∧ d = (w c, l))
                   (BroadcastLog_range l env todo (S i) arr' len').2) as Hev.
    { intros arr' len' E. eapply Forall_impl; [apply IH|].
      intros d (c' & Hc' & ->). exists c'. split; [|done]. by eapply evict_elem. }
    destruct (write_err env i).
    + destruct (evict i arr len) as [[arr' len']|] eqn:E; [by apply Hev|constructor].
    + destruct (ctx_done env i).
      * destruct (evict i arr len) as [[arr' len']|] eqn:E; cbn [snd].
        -- constructor; [by exists c|by apply Hev].
        -- constructor; [by exists c|constructor].
      * cbn [snd]. constructor; [by exists c|apply IH].
Qed.

Lemma range_shrinks (l : string) (env : Env) (todo i : nat) (arr : list Client)
    (len : nat) :
  len ≤ length arr → i + todo ≤ length arr →
  match (BroadcastLog_range l env todo i arr len).1 with
  | Some (arr', len') =>
      length arr' = length arr
      ∧ sublist (take len' arr') (take len arr)
      ∧ len' + length (filter (λ j, evicts env j = true) (seq i todo)) = len
  | None => True
  end.
Proof.
  revert i arr len. induction todo as [|todo IH]; intros i arr len Hlen Hi.
  - cbn. split_and!; [done|done|lia].
  - cbn [seq]. destruct (evicts env i) eqn:He.
    + rewrite filter_cons_True by done.
      destruct (decide (i < len)) as [Hlt|Hge].
      * destruct (range_evict l env todo i arr len Hlt Hlen He) as (arr1 & L & T & _ & ->).
        specialize (IH (S i) arr1 (len - 1)).
        destruct (BroadcastLog_range l env todo (S i) arr1 (len - 1)).1 as [[arr' len']|];
          [|done].
        destruct IH as (IH1 & IH2 & IH3); [lia|lia|].
        split_and!; [congruence| |cbn [length]; lia].
        etrans; [exact IH2|]. rewrite T. apply sublist_delete.
      * rewrite range_evict_panic; [done|lia|done|lia].
    + rewrite filter_cons_False by (rewrite He; done).
      destruct (lookup_lt_is_Some_2 arr i) as [c Hc]; [lia|].
      rewrite (range_keep l env todo i arr len c Hc He). cbn [fst].
      apply IH; lia.
Qed.

(** X5. A broadcast writes nothing but the given frame, and only to writers of
    clients that were registered when it began.  When it ends without a
    panic, the Client Registry afterwards consists of clients of the registry
    before, in their order, and is shorter by exactly the number of iterations
    that evicted. *)
Theorem BroadcastLog_shrinks (l : string) (env : Env) (sc : list Client) :
  Forall (λ d, ∃ c, c ∈ sc ∧ d = (w c, l)) (BroadcastLog l env sc).2
  ∧ match (BroadcastLog l env sc).1 with
    | Some sc' =>
        sublist sc' sc
        ∧ length sc' + length (filter (λ j, evicts env j = true) (seq 0 (length sc)))
          = length sc
    | None => True
    end.
Proof.
  split; [apply range_writes|].
  unfold BroadcastLog. cbn [fst].
  pose proof (range_shrinks l env (length sc) 0 sc (length sc)) as H.
  destruct (BroadcastLog_range l env (length sc) 0 sc (length sc)).1 as [[arr' len']|];
    [|done].
  destruct H as (H1 & H2 & H3); [lia|cbn; lia|].
  rewrite firstn_all in H2. split; [done|].
  rewrite length_take_le; [done|]. lia.
Qed.

Lemma range_panic_at (l : string) (env : Env) (todo i j : nat) (arr : list Client)
    (len : nat) :
  i ≤ j < i + todo → i + todo ≤ length arr → len ≤ length arr →
  evicts env j = true → len ≤ j →
  (BroadcastLog_range l env todo i arr len).1 = None.
Proof.
  revert i arr len. induction todo as [|todo IH]; intros i arr len Hj Hi Hlen He Hle; [lia|].
  destruct (decide (i = j)) as [->|Hne].
  { apply range_evict_panic; [lia|done|done]. }
  destruct (evicts env i) eqn:Hei.
  - destruct (decide (i < len)) as [Hlt|Hge].
    + destruct (range_evict l env todo i arr len Hlt Hlen Hei) as (arr1 & L & _ & _ & ->).
      apply IH; [lia|lia|lia|done|lia].
    + apply range_evict_panic; [lia|done|lia].
  - destruct (lookup_lt_is_Some_2 arr i) as [c Hc]; [lia|].
    rewrite (range_keep l env todo i arr len c Hc Hei). cbn [fst].
    apply IH; [lia|lia|lia|done|lia].
Qed.

Lemma range_panic_after (l : string) (env : Env) (todo i j0 j : nat)
    (arr : list Client) (len : nat) :
  i ≤ j0 → j0 < j → j < i + todo → i + todo ≤ length arr → len ≤ length arr →
  evicts env j0 = true → evicts env j = true → len ≤ j + 1 →
  (BroadcastLog_range l env todo i arr len).1 = None.
Proof.
  revert i arr len.
  induction todo as [|todo IH]; intros i arr len Hj0 Hjj Hj Hi Hlen He0 He Hle; [lia|].
  destruct (evicts env i) eqn:Hei.
  - destruct (decide (i < len)) as [Hlt|Hge].
    + destruct (range_evict l env todo i arr len Hlt Hlen Hei) as (arr1 & L & _ & _ & ->).
      destruct (decide (i = j0)) as [->|Hne].
      * apply (range_panic_at l env todo (S j0) j); [lia|lia|lia|done|lia].
      * apply IH; [lia|lia|lia|lia|lia|done|done|lia].
    + apply range_evict_panic; [lia|done|lia].
  - assert (i ≠ j0) by congruence.
    destruct (lookup_lt_is_Some_2 arr i) as [c Hc]; [lia|].
    rewrite (range_keep l env todo i arr len c Hc Hei). cbn [fst].
    apply IH; [lia|lia|lia|lia|lia|done|done|lia].
Qed.

(** X6. A broadcast whose last iteration evicts, after an earlier iteration
    of the same broadcast has evicted too, ends in the panic of the slice
    expression (and with it the process): the registry has become shorter
    under the running loop, and the index of the last iteration lies beyond
    it. *)
Theorem BroadcastLog_panic (l : string) (env : Env) (sc : list Client) (j0 : nat) :
  j0 + 1 < length sc →
  evicts env j0 = true → evicts env (length sc - 1) = true →
  (BroadcastLog l env sc).1 = None.
Proof.
  intros Hj He0 He. unfold BroadcastLog. cbn [fst].
  rewrite (range_panic_after l env (length sc) 0 j0 (length sc - 1) sc (length sc));
    [done|lia|lia|lia|cbn; lia|lia|done|done|lia].
Qed.

Lemma BroadcastLog_panic_witness :
  (BroadcastLog "f" {| write_err := λ i, bool_decide (i ≠ 1); ctx_done := λ _, false |}
     [{| id := 1; w := 10; r := 10 |}; {| id := 2; w := 20; r := 20 |};
      {| id := 3; w := 30; r := 30 |}]).1 = None.
Proof.
  apply (BroadcastLog_panic "f" _ _ 0); [cbn; lia|reflexivity|reflexivity].
Defined.

(** ** Fan-out to several subscribers *)

Lemma filter_own_writer (f : string) (c : Client) (sc : list Client) :
  NoDup (w <$> sc) → c ∈ sc →
  filter (λ d, d.1 = w c) ((λ c', (w c', f)) <$> sc) = [(w c, f)].
Proof.
  induction sc as [|c0 sc IH]; intros Hnd Hin; [by apply elem_of_nil in Hin|].
  rewrite fmap_cons in Hnd. apply NoDup_cons in Hnd as [Hc0 Hnd].
  rewrite fmap_cons. apply elem_of_cons in Hin as [->|Hin].
  - rewrite filter_cons_True by done. f_equal.
    clear IH Hnd. induction sc as [|c1 sc IH]; [done|].
    rewrite fmap_cons in Hc0. apply not_elem_of_cons in Hc0 as [Hne Hc0].
    rewrite fmap_cons, filter_cons_False by (cbn; congruence). by apply IH.
  - rewrite filter_cons_False; [by apply IH|].
    cbn. intros E. apply Hc0. rewrite E. by apply list_elem_of_fmap_2.
Qed.

(** X7. While nobody joins or leaves and no broadcast evicts, the Client
    Registry stays as it is, and every registered client whose writer is not
    shared has received exactly the frames of the broadcasts that ran, each
    once, in the order they ran; so any two such subscribers have received
    the same sequence. *)
Theorem calm_fan_out (cs : list Choice) (s0 s : Sys) (os : list Obs) (c : Client) :
  replay cs s0 = Some (s, os) → calm cs →
  NoDup (w <$> subs s0) → c ∈ subs s0 →
  subs s = subs s0 ∧ crashed s = crashed s0 ∧ received (w c) os = ran os.
Proof.
  revert s0 s os. induction cs as [|ch cs IH]; intros s0 s os; cbn [replay].
  - intros [= <- <-] _ _ _. done.
  - destruct (step ch s0) as [[s1 o]|] eqn:Hstep; [|discriminate].
    destruct (replay cs s1) as [[s2 os']|] eqn:Hr; [|discriminate].
    intros [= <- <-] Hcalm Hnd Hin. apply Forall_cons in Hcalm as [Hch Hcalm].
    unfold step in Hstep. destruct (crashed s0) eqn:Hcr; [discriminate|].
    assert (subs s1 = subs s0 ∧ crashed s1 = false
            ∧ received (w c) [o] = ran [o]) as (E1 & E2 & E3).
    { destruct ch as [l| | |k env|c'|id0]; [| | | |done|done].
      - case_decide; [|discriminate]. by injection Hstep as <- <-.
      - destruct (chan s0); [discriminate|]. by injection Hstep as <- <-.
      - destruct (chan s0); [discriminate|]. by injection Hstep as <- <-.
      - destruct (tasks s0 !! k) as [frame|]; [|discriminate].
        rewrite (BroadcastLog_no_eviction frame env (subs s0)) in Hstep
          by (intros i _; apply Hch).
        cbn [fst snd] in Hstep. injection Hstep as <- <-.
        split_and!; [done|done|].
        unfold received, ran. cbn [flat_map]. rewrite !app_nil_r.
        by rewrite (filter_own_writer frame c (subs s0) Hnd Hin). }
    destruct (IH s1 s2 os' Hr Hcalm) as (IH1 & IH2 & IH3); [by rewrite E1|by rewrite E1|].
    split_and!; [congruence|congruence|].
    unfold received, ran in *. cbn [flat_map] in *. rewrite !app_nil_r in E3.
    by rewrite E3, IH3.
Qed.

Lemma calm_fan_out_witness :
  match replay [Dequeue; Dequeue; RunTask 1 quiet; RunTask 0 quiet]
               {| chan := [{| Level := "INFO"; Msg := "Scanning..." |};
                           {| Level := "INFO"; Msg := "Stopped Scanning." |}];
                  tasks := [];
                  subs := [{| id := 1; w := 10; r := 10 |}; {| id := 2; w := 20; r := 20 |}];
                  crashed := false |}
  with
  | Some (s, os) => received 10 os = ran os ∧ received 20 os = ran os
  | None => False
  end.
Proof.
  destruct (replay _ _) as [[s os]|] eqn:E.
  - split.
    + apply (calm_fan_out _ _ s os {| id := 1; w := 10; r := 10 |} E).
      * repeat constructor.
      * apply (bool_decide_unpack _). vm_compute. exact I.
      * apply (bool_decide_unpack _). vm_compute. exact I.
    + apply (calm_fan_out _ _ s os {| id := 2; w := 20; r := 20 |} E).
      * repeat constructor.
      * apply (bool_decide_unpack _). vm_compute. exact I.
      * apply (bool_decide_unpack _). vm_compute. exact I.
  - vm_compute in E. discriminate E.
Defined.

(** ** Device Registry and discoveries *)

Lemma Scan_callback_keyed (result : bluetooth.ScanResult) (sd : gmap string Device) :
  keyed sd → keyed (Scan_callback result sd).1.
Proof.
  intros H. unfold Scan_callback.
  case_bool_decide; [done|]. destruct (Exists _ sd); [done|].
  cbn [fst]. unfold Add, keyed. by apply map_Forall_insert_2.
Qed.

Lemma run_keyed (acts : list Action) (σ : World) :
  keyed (devices σ) → keyed (devices (run acts σ).1).
Proof.
  revert σ. induction acts as [|a acts IH]; intros σ H; cbn [run fst]; [done|].
  apply IH. destruct a; cbn [exec fst devices]; [done|done|by apply Scan_callback_keyed].
Qed.

(** X8. After any sequence of commands and discoveries since start-up, every
    device of the Device Registry is stored under the text of its own address;
    hence the address printed in a replayed DEVICE entry is the key under
    which CONNECT looks the device up, and CONNECT with it never answers that
    the device could not be found. *)
Theorem registry_keys (acts : list Action) :
  map_Forall (λ addr device, addr = bluetooth.Address_String (Address device))
             (devices (run acts boot).1)
  ∧ ∀ (addr : string) (device : Device) (drv : bluetooth.ConnectResult) (sa : SafeAdapter),
      devices (run acts boot).1 !! addr = Some device →
      {| Level := "ERROR"; Msg := "Could not find the device." |}
        ∉ (Connect (bluetooth.Address_String (Address device)) drv
                   (devices (run acts boot).1) sa).2.
Proof.
  assert (keyed (devices (run acts boot).1)) as Hk.
  { apply (run_keyed acts boot). apply map_Forall_empty. }
  split; [exact Hk|].
  intros addr device drv sa Hd. rewrite <- (Hk addr device Hd).
  unfold Connect. destruct (Connected sa || bool_decide (BTDevice sa ≠ None)).
  - cbn [snd]. intros [E|E%elem_of_nil]%elem_of_cons; [discriminate E|done].
  - rewrite (Exists_true _ _ _ Hd). cbn [negb]. unfold SafeDevices_Device. rewrite Hd.
    destruct drv; cbn [snd];
      intros [E|E%elem_of_nil]%elem_of_cons; first [discriminate E|done].
Qed.

Lemma registry_keys_witness :
  {| Level := "ERROR"; Msg := "Could not find the device." |}
    ∉ (Connect (bluetooth.Address_String (bluetooth.MkAddress "AA:BB"))
         (bluetooth.ConnectErr "timeout")
         (devices (run [DISCOVERY {| bluetooth.Address_of := bluetooth.MkAddress "AA:BB";
                                     bluetooth.LocalName := "Lamp" |}] boot).1)
         Adapter).2.
Proof.
  apply (proj2 (registry_keys [DISCOVERY {| bluetooth.Address_of := bluetooth.MkAddress "AA:BB";
                                            bluetooth.LocalName := "Lamp" |}])
           "AA:BB" {| Name := "Lamp"; Address := bluetooth.MkAddress "AA:BB" |}).
  reflexivity.
Defined.

Lemma Scan_callback_count (result : bluetooth.ScanResult) (sd : gmap string Device) :
  length (device_entries (Scan_callback result sd).2) + size sd
    = size (Scan_callback result sd).1.
Proof.
  unfold Scan_callback. case_bool_decide; [done|].
  destruct (Exists _ sd) eqn:E; [done|].
  cbn [fst snd]. unfold Add. cbn [Address].
  rewrite map_size_insert_None; [done|].
  unfold Exists in E. apply bool_decide_eq_false in E.
  destruct (sd !! _) eqn:Hd; [|done]. exfalso. apply E. by eexists.
Qed.

Lemma Scan_goroutine_count (evs : list ScanEv) (sd : gmap string Device) :
  length (device_entries (Scan_goroutine evs sd).2) + size sd
    = size (Scan_goroutine evs sd).1.
Proof.
  revert sd. induction evs as [|ev evs IH]; intros sd; cbn [Scan_goroutine fst snd]; [done|].
  unfold device_entries in *. rewrite filter_app, length_app.
  rewrite <- IH.
  destruct ev as [result|[err|]]; cbn [Scan_goroutine_step fst snd].
  - pose proof (Scan_callback_count result sd) as H. unfold device_entries in H. lia.
  - rewrite filter_cons_False by (cbn; discriminate). rewrite filter_nil. cbn [length]. lia.
  - rewrite filter_nil. cbn [length]. lia.
Qed.

Lemma Scan_goroutine_lookup (evs : list ScanEv) (sd : gmap string Device)
    (addr : string) (device : Device) :
  sd !! addr = Some device → (Scan_goroutine evs sd).1 !! addr = Some device.
Proof.
  revert sd. induction evs as [|ev evs IH]; intros sd H; cbn [Scan_goroutine fst]; [done|].
  apply IH. destruct ev as [result|[err|]]; cbn [Scan_goroutine_step fst]; [|done|done].
  by apply Scan_callback_lookup.
Qed.

(** the named discoveries among [evs] are all stored in [sd] *)
Lemma Scan_goroutine_silent (evs : list ScanEv) (sd : gmap string Device) :
  (∀ result, Discovered result ∈ evs → bluetooth.LocalName result ≠ EmptyString →
             is_Some (sd !! bluetooth.Address_String (bluetooth.Address_of result))) →
  (Scan_goroutine evs sd).1 = sd ∧ device_entries (Scan_goroutine evs sd).2 = [].
Proof.
  induction evs as [|ev evs IH]; intros H; cbn [Scan_goroutine fst snd]; [done|].
  assert ((Scan_goroutine_step ev sd).1 = sd
          ∧ device_entries (Scan_goroutine_step ev sd).2 = []) as [E1 E2].
  { destruct ev as [result|[err|]]; cbn [Scan_goroutine_step]; [|done|done].
    unfold Scan_callback. case_bool_decide as Hn; [done|].
    destruct (H result) as [device Hd]; [by left|done|].
    by rewrite (Exists_true _ _ _ Hd). }
  rewrite E1. destruct IH as [IH1 IH2].
  { intros result Hr. apply H. by right. }
  split; [done|]. unfold device_entries in *. by rewrite filter_app, E2, IH2.
Qed.

Lemma Scan_goroutine_stored (evs : list ScanEv) (sd : gmap string Device)
    (result : bluetooth.ScanResult) :
  Discovered result ∈ evs → bluetooth.LocalName result ≠ EmptyString →
  is_Some ((Scan_goroutine evs sd).1 !! bluetooth.Address_String (bluetooth.Address_of result)).
Proof.
  revert sd. induction evs as [|ev evs IH]; intros sd Hin Hn; [by apply elem_of_nil in Hin|].
  cbn [Scan_goroutine fst]. apply elem_of_cons in Hin as [<-|Hin]; [|by apply IH].
  cbn [Scan_goroutine_step].
  assert (is_Some ((Scan_callback result sd).1
                     !! bluetooth.Address_String (bluetooth.Address_of result)))
    as [device Hd].
  { unfold Scan_callback. rewrite bool_decide_eq_false_2 by done.
    destruct (Exists _ sd) eqn:E.
    - by apply bool_decide_eq_true in E.
    - cbn [fst]. unfold Add. cbn [Address]. rewrite lookup_insert_eq. by eexists. }
  exists device. by apply Scan_goroutine_lookup.
Qed.

(** X9. A SCAN sends exactly one DEVICE entry per device it adds: the number
    of its DEVICE entries is the growth of the Device Registry.  A second SCAN
    in which the driver reports the same discoveries adds nothing and sends no
    DEVICE entry. *)
Theorem Scan_announces_new_devices
    (seconds seconds' : nat) (r0 : ScanRun) (sd : gmap string Device) :
  length (device_entries (Scan seconds r0 sd).2) + size sd = size (Scan seconds r0 sd).1
  ∧ (Scan seconds' r0 (Scan seconds r0 sd).1).1 = (Scan seconds r0 sd).1
  ∧ device_entries (Scan seconds' r0 (Scan seconds r0 sd).1).2 = [].
Proof.
  split.
  - unfold Scan. cbn [fst snd]. unfold device_entries.
    rewrite filter_cons_False by (cbn; discriminate).
    rewrite !filter_app, !length_app.
    pose proof (Scan_goroutine_count (before r0) sd) as H1.
    pose proof (Scan_goroutine_count (after r0) (Scan_goroutine (before r0) sd).1) as H2.
    unfold device_entries in H1, H2.
    assert (filter (λ l, Level l = "DEVICE")
              (match stop_err r0 with
               | Some _ => []
               | None => [LogInfo ["Stopped Scanning."]]
               end) = []) as ->.
    { destruct (stop_err r0); [done|]. by rewrite filter_cons_False by (cbn; discriminate). }
    cbn [length]. lia.
  - set (sd2 := (Scan seconds r0 sd).1).
    unfold Scan. cbn [fst snd].
    destruct (Scan_goroutine_silent (before r0) sd2) as [E1 E2].
    { intros result Hin Hn. unfold sd2, Scan. cbn [fst].
      destruct (Scan_goroutine_stored (before r0) sd result Hin Hn) as [device Hd].
      exists device. by apply Scan_goroutine_lookup. }
    rewrite E1.
    destruct (Scan_goroutine_silent (after r0) sd2) as [E3 E4].
    { intros result Hin Hn. unfold sd2, Scan. cbn [fst].
      by apply Scan_goroutine_stored. }
    split; [done|].
    unfold device_entries in *.
    rewrite filter_cons_False by (cbn; discriminate).
    rewrite !filter_app, E2, E4.
    destruct (stop_err r0); [done|]. by rewrite filter_cons_False by (cbn; discriminate).
Qed.

(** ** Commands in sequence *)

Lemma run_failed_disconnects (errs : list string) (σ : World) :
  Connected (adapter σ) = true →
  (run (DISCONNECT ∘ Some <$> errs) σ).1 = σ.
Proof.
  intros Hc. induction errs as [|err errs IH]; [done|].
  rewrite fmap_cons. cbn [run fst compose].
  assert ((exec (DISCONNECT (Some err)) σ).1 = σ) as ->; [|exact IH].
  cbn [exec fst].
  destruct (Disconnect_result (Some err) (adapter σ)) as [->|(E & _)]; [|discriminate E].
  by destruct σ.
Qed.

Lemma run_refused_disconnects (errs : list string) (dvc : bluetooth.Device)
    (sd : gmap string Device) :
  run (DISCONNECT ∘ Some <$> errs)
      {| adapter := {| BTDevice := Some dvc; Connected := true |}; devices := sd |} =
    ({| adapter := {| BTDevice := Some dvc; Connected := true |}; devices := sd |},
     (λ err, {| Level := "ERROR"; Msg := "Could not disconnect device - " +:+ err |})
       <$> errs).
Proof.
  induction errs as [|err errs IH]; [done|].
  rewrite !fmap_cons. cbn [run compose].
  change (exec (DISCONNECT (Some err))
            {| adapter := {| BTDevice := Some dvc; Connected := true |}; devices := sd |})
    with ({| adapter := {| BTDevice := Some dvc; Connected := true |}; devices := sd |},
          [{| Level := "ERROR"; Msg := "Could not disconnect device - " +:+ err |}]).
  cbn [fst snd]. by rewrite IH.
Qed.

(** X10. From the disconnected state, a CONNECT to a registered address that
    the driver accepts, followed by a DISCONNECT that the driver accepts,
    brings Adapter State back to the disconnected value, with the two INFO
    entries sent in between.  DISCONNECTs that the driver refuses, any number
    of them, leave the connection in place: Adapter State keeps the flag and
    the same handle, and each sends the ERROR entry of the refused
    disconnect; the first DISCONNECT the driver accepts after them resets
    Adapter State and sends INFO [Disconnected.]. *)
Theorem Connect_Disconnect_round_trip
    (sd : gmap string Device) (address : string) (device : Device)
    (dvc : bluetooth.Device) (errs : list string) :
  sd !! address = Some device →
  run [CONNECT address (bluetooth.ConnectOk dvc); DISCONNECT None]
      {| adapter := Adapter; devices := sd |} =
    ({| adapter := Adapter; devices := sd |},
     [{| Level := "INFO"; Msg := "Connected to " +:+ Name device |};
      {| Level := "INFO"; Msg := "Disconnected." |}])
  ∧ (run (CONNECT address (bluetooth.ConnectOk dvc)
            :: (DISCONNECT ∘ Some <$> errs) ++ [DISCONNECT None])
         {| adapter := Adapter; devices := sd |}).1 =
      {| adapter := Adapter; devices := sd |}
  ∧ run (CONNECT address (bluetooth.ConnectOk dvc) :: (DISCONNECT ∘ Some <$> errs))
        {| adapter := Adapter; devices := sd |} =
      ({| adapter := {| BTDevice := Some dvc; Connected := true |}; devices := sd |},
       {| Level := "INFO"; Msg := "Connected to " +:+ Name device |}
         :: ((λ err, {| Level := "ERROR";
                        Msg := "Could not disconnect device - " +:+ err |}) <$> errs))
  ∧ run (CONNECT address (bluetooth.ConnectOk dvc)
           :: (DISCONNECT ∘ Some <$> errs) ++ [DISCONNECT None])
        {| adapter := Adapter; devices := sd |} =
      ({| adapter := Adapter; devices := sd |},
       {| Level := "INFO"; Msg := "Connected to " +:+ Name device |}
         :: ((λ err, {| Level := "ERROR";
                        Msg := "Could not disconnect device - " +:+ err |}) <$> errs)
         ++ [{| Level := "INFO"; Msg := "Disconnected." |}]).
Proof.
  intros Hd.
  destruct (Connect_cases address sd) as (_ & _ & Hok & _).
  specialize (Hok device dvc Hd).
  assert (exec (CONNECT address (bluetooth.ConnectOk dvc))
               {| adapter := Adapter; devices := sd |} =
          ({| adapter := {| BTDevice := Some dvc; Connected := true |}; devices := sd |},
           [{| Level := "INFO"; Msg := "Connected to " +:+ Name device |}])) as Hc.
  { cbn [exec adapter devices]. by rewrite Hok. }
  split; [|split; [|split]].
  - cbn [run]. rewrite Hc. reflexivity.
  - cbn [run fst]. rewrite run_app, Hc. cbn [fst].
    rewrite run_failed_disconnects by done. reflexivity.
  - cbn [run]. rewrite Hc. cbn [fst snd]. by rewrite run_refused_disconnects.
  - cbn [run]. rewrite Hc. cbn [fst snd]. rewrite run_app, run_refused_disconnects.
    reflexivity.
Qed.

Lemma Connect_Disconnect_round_trip_witness :
  (run (CONNECT "AA:BB" (bluetooth.ConnectOk 4)
          :: (DISCONNECT ∘ Some <$> ["busy"; "busy"]) ++ [DISCONNECT None])
       {| adapter := Adapter;
          devices := Add {| Name := "Lamp"; Address := bluetooth.MkAddress "AA:BB" |}
                         Devices |}).1 =
    {| adapter := Adapter;
       devices := Add {| Name := "Lamp"; Address := bluetooth.MkAddress "AA:BB" |} Devices |}
  ∧ run (CONNECT "AA:BB" (bluetooth.ConnectOk 4) :: (DISCONNECT ∘ Some <$> ["busy"; "busy"]))
        {| adapter := Adapter;
           devices := Add {| Name := "Lamp"; Address := bluetooth.MkAddress "AA:BB" |}
                          Devices |} =
      ({| adapter := {| BTDevice := Some 4; Connected := true |};
          devices := Add {| Name := "Lamp"; Address := bluetooth.MkAddress "AA:BB" |}
                         Devices |},
       {| Level := "INFO";
          Msg := "Connected to "
                   +:+ Name {| Name := "Lamp"; Address := bluetooth.MkAddress "AA:BB" |} |}
         :: ((λ err, {| Level := "ERROR";
                        Msg := "Could not disconnect device - " +:+ err |})
               <$> ["busy"; "busy"])).
Proof.
  destruct (Connect_Disconnect_round_trip
              (Add {| Name := "Lamp"; Address := bluetooth.MkAddress "AA:BB" |} Devices)
              "AA:BB" {| Name := "Lamp"; Address := bluetooth.MkAddress "AA:BB" |} 4
              ["busy"; "busy"] eq_refl) as (_ & H2 & H3 & _).
  split; [exact H2|exact H3].
Defined.

Lemma run_handle (acts : list Action) (σ : World) (dvc : bluetooth.Device) :
  BTDevice (adapter (run acts σ).1) = Some dvc →
  BTDevice (adapter σ) = Some dvc
  ∨ ∃ address, CONNECT address (bluetooth.ConnectOk dvc) ∈ acts
               ∧ is_Some (devices (run acts σ).1 !! address).
Proof.
  revert σ. induction acts as [|a acts IH]; intros σ H; cbn [run fst] in *; [by left|].
  destruct (IH _ H) as [Hh|(address & Hin & Hd)].
  - destruct a as [address drv|drv|result]; cbn [exec fst adapter] in Hh.
    + destruct (Connect_result address drv (devices σ) (adapter σ))
        as [E|(_ & [device Hdev] & dvc' & -> & E)]; rewrite E in Hh.
      * by left.
      * cbn in Hh. injection Hh as ->. right. exists address. split; [by left|].
        exists device. apply run_lookup. by cbn.
    + destruct (Disconnect_result drv (adapter σ)) as [E|(_ & _ & E)]; rewrite E in Hh.
      * by left.
      * discriminate Hh.
    + by left.
  - right. exists address. split; [by right|done].
Qed.

(** X11. The handle that Adapter State holds was returned by the driver for
    a CONNECT of the sequence, to an address that is in the Device Registry:
    no operation installs any other handle. *)
Theorem handle_provenance (sd : gmap string Device) (acts : list Action)
    (dvc : bluetooth.Device) :
  BTDevice (adapter (run acts {| adapter := Adapter; devices := sd |}).1) = Some dvc →
  ∃ address, CONNECT address (bluetooth.ConnectOk dvc) ∈ acts
             ∧ is_Some (devices (run acts {| adapter := Adapter; devices := sd |}).1
                          !! address).
Proof.
  intros H. destruct (run_handle acts _ dvc H) as [E|E]; [discriminate E|exact E].
Qed.

Lemma handle_provenance_witness :
  ∃ address,
    CONNECT address (bluetooth.ConnectOk 4)
      ∈ [DISCOVERY {| bluetooth.Address_of := bluetooth.MkAddress "AA:BB";
                      bluetooth.LocalName := "Lamp" |};
         CONNECT "CC:DD" (bluetooth.ConnectOk 3);
         CONNECT "AA:BB" (bluetooth.ConnectOk 4)]
    ∧ is_Some (devices (run [DISCOVERY {| bluetooth.Address_of := bluetooth.MkAddress "AA:BB";
                                          bluetooth.LocalName := "Lamp" |};
                             CONNECT "CC:DD" (bluetooth.ConnectOk 3);
                             CONNECT "AA:BB" (bluetooth.ConnectOk 4)]
                            {| adapter := Adapter; devices := Devices |}).1 !! address).
Proof.
  apply (handle_provenance Devices _ 4). reflexivity.
Defined.

(** X12. CONNECT and DISCONNECT each send exactly one entry: level INFO when
    they change Adapter State, level ERROR when they leave it as it is.
    STOP_SCAN sends exactly one entry, INFO or ERROR by the driver's answer.
    The discovery callback sends nothing, or one entry of level DEVICE. *)
Theorem one_entry_per_command :
  (∀ (address : string) (drv : bluetooth.ConnectResult) (sd : gmap string Device)
     (sa : SafeAdapter),
     ∃ l, (Connect address drv sd sa).2 = [l]
          ∧ (Level l = "INFO" ∧ (Connect address drv sd sa).1 ≠ sa
             ∨ Level l = "ERROR" ∧ (Connect address drv sd sa).1 = sa))
  ∧ (∀ (drv : option string) (sa : SafeAdapter),
       ∃ l, (Disconnect drv sa).2 = [l]
            ∧ (Level l = "INFO" ∧ (Disconnect drv sa).1 ≠ sa
               ∨ Level l = "ERROR" ∧ (Disconnect drv sa).1 = sa))
  ∧ (∀ drv : option string,
       ∃ l, StopScan drv = [l]
            ∧ Level l = match drv with Some _ => "ERROR" | None => "INFO" end)
  ∧ (∀ (result : bluetooth.ScanResult) (sd : gmap string Device),
       (Scan_callback result sd).2 = []
       ∨ ∃ l, (Scan_callback result sd).2 = [l] ∧ Level l = "DEVICE").
Proof.
  split_and!.
  - intros address drv sd sa. unfold Connect.
    destruct (Connected sa || bool_decide (BTDevice sa ≠ None)) eqn:Hb.
    { eexists. split; [reflexivity|]. by right. }
    apply orb_false_elim in Hb as [Hc _].
    unfold Exists, SafeDevices_Device. case_bool_decide as He; cbn [negb].
    + destruct He as [device ->]. destruct drv as [dvc|err].
      * eexists. split; [reflexivity|]. left. split; [done|].
        cbn [fst]. intros <-. cbn in Hc. discriminate Hc.
      * eexists. split; [reflexivity|]. by right.
    + eexists. split; [reflexivity|]. by right.
  - intros drv sa. unfold Disconnect.
    destruct (negb (Connected sa) || bool_decide (BTDevice sa = None)) eqn:Hb.
    { eexists. split; [reflexivity|]. by right. }
    apply orb_false_elim in Hb as [Hc _].
    destruct drv as [err|].
    + eexists. split; [reflexivity|]. by right.
    + eexists. split; [reflexivity|]. left. split; [done|].
      cbn [fst]. intros <-. cbn in Hc. discriminate Hc.
  - intros [err|]; eexists; (split; [reflexivity|done]).
  - intros result sd. destruct (Scan_callback_out result sd) as [E|E]; [by left|].
    right. eexists. by split.
Qed.

(** ** Frames *)

Lemma append_nil (s : string) : EmptyString +:+ s = s.
Proof. reflexivity. Qed.

Lemma append_cons (c : ascii) (a s : string) : String c a +:+ s = String c (a +:+ s).
Proof. reflexivity. Qed.

Lemma append_inv_head (p a b : string) : p +:+ a = p +:+ b → a = b.
Proof.
  induction p as [|c p IH]; rewrite ?append_nil, ?append_cons; [done|].
  intros [= H]. by apply IH.
Qed.

Lemma length_append (a b : string) :
  String.length (a +:+ b) = String.length a + String.length b.
Proof.
  induction a as [|c a IH]; rewrite ?append_nil, ?append_cons; [done|].
  cbn [String.length]. by rewrite IH.
Qed.

Lemma append_inv_tail (a b s : string) : a +:+ s = b +:+ s → a = b.
Proof.
  revert b. induction a as [|c a IH]; intros [|c' b] H;
    rewrite ?append_nil, ?append_cons in H.
  - done.
  - apply (f_equal String.length) in H. cbn [String.length] in H.
    rewrite length_append in H. lia.
  - apply (f_equal String.length) in H. cbn [String.length] in H.
    rewrite length_append in H. lia.
  - injection H as -> H. f_equal. by apply IH.
Qed.

Lemma split_at_first_nl (a b x y : string) :
  has_nl a = false → has_nl b = false →
  a +:+ nl +:+ x = b +:+ nl +:+ y → a = b ∧ x = y.
Proof.
  unfold nl.
  revert b. induction a as [|c a IH]; intros [|c' b] Ha Hb H;
    repeat (rewrite append_nil in H || rewrite append_cons in H); cbn [has_nl] in Ha, Hb.
  - by injection H as ->.
  - injection H as <- _. apply orb_false_elim in Hb as [Hb _].
    by apply bool_decide_eq_false in Hb.
  - injection H as -> _. apply orb_false_elim in Ha as [Ha _].
    by apply bool_decide_eq_false in Ha.
  - injection H as -> H.
    apply orb_false_elim in Ha as [_ Ha]. apply orb_false_elim in Hb as [_ Hb].
    destruct (IH b Ha Hb H) as [-> ->]. done.
Qed.

(** X13. Two log entries whose levels contain no line feed (as INFO, ERROR
    and DEVICE do not) and whose frames are equal are the same entry: the
    frame determines level and message. *)
Theorem LogToSSE_inj (l1 l2 : Log) :
  has_nl (Level l1) = false → has_nl (Level l2) = false →
  LogToSSE l1 = LogToSSE l2 → l1 = l2.
Proof.
  destruct l1 as [lv1 m1], l2 as [lv2 m2]. unfold LogToSSE. cbn [Level Msg].
  intros H1 H2 E. apply append_inv_head in E.
  change (lv1 +:+ nl +:+ ("data: " +:+ dquote +:+ m1 +:+ dquote +:+ nl +:+ nl) =
          lv2 +:+ nl +:+ ("data: " +:+ dquote +:+ m2 +:+ dquote +:+ nl +:+ nl)) in E.
  apply split_at_first_nl in E as [-> E]; [|done|done].
  apply (append_inv_head ("data: " +:+ dquote)) in E.
  by apply append_inv_tail in E as ->.
Qed.

Lemma LogToSSE_inj_witness :
  LogInfo ["Stopped Scanning."] = {| Level := "INFO"; Msg := "Stopped Scanning." |}.
Proof.
  apply LogToSSE_inj; reflexivity.
Defined.

(** ** The writes of a broadcast with one eviction *)

Lemma range_single_writes (l : string) (env : Env) (todo i i0 : nat) (sc : list Client)
    (c0 : Client) :
  i ≤ i0 → i0 + 1 < length sc → i + todo = length sc →
  sc !! i0 = Some c0 → evicts env i0 = true →
  (∀ j, j < length sc → j ≠ i0 → evicts env j = false) →
  (BroadcastLog_range l env todo i sc (length sc)).2 =
    ((λ c, (w c, l)) <$> take (i0 - i) (drop i sc))
    ++ (if write_err env i0 then [] else [(w c0, l)])
    ++ ((λ c, (w c, l)) <$> (drop (i0 + 2) sc ++ drop (length sc - 1) sc)).
Proof.
  revert i. induction todo as [|todo IH]; intros i Hi Hn Htodo Hc0 He Hq; [lia|].
  destruct (decide (i = i0)) as [->|Hne].
  - rewrite Nat.sub_diag, take_0. cbn [fmap list_fmap app].
    assert (evict i0 sc (length sc) =
            Some (take i0 sc ++ take (length sc - (i0 + 1)) (drop (i0 + 1) sc)
                    ++ drop (length sc - 1) sc, length sc - 1)) as Hev.
    { unfold evict. case_decide; [done|lia]. }
    set (arr' := take i0 sc ++ take (length sc - (i0 + 1)) (drop (i0 + 1) sc)
                   ++ drop (length sc - 1) sc) in *.
    assert (length arr' = length sc) as Hlen.
    { unfold arr'. rewrite !length_app, !length_take, !length_drop. lia. }
    assert (take todo (drop (S i0) arr') = drop (i0 + 2) sc ++ drop (length sc - 1) sc)
      as Hrest.
    { unfold arr'.
      rewrite (take_ge (drop (i0 + 1) sc)) by (rewrite length_drop; lia).
      rewrite drop_app_ge by (rewrite length_take; lia).
      rewrite length_take, Nat.min_l by lia.
      replace (S i0 - i0) with 1 by lia.
      rewrite drop_app_le by (rewrite length_drop; lia).
      rewrite drop_drop. replace (i0 + 1 + 1) with (i0 + 2) by lia.
      apply take_ge. rewrite length_app, !length_drop. lia. }
    assert (BroadcastLog_range l env todo (S i0) arr' (length sc - 1) =
            (Some (arr', length sc - 1),
             (λ c, (w c, l)) <$> (drop (i0 + 2) sc ++ drop (length sc - 1) sc))) as Hk.
    { rewrite range_quiet; [by rewrite Hrest|lia|].
      intros j Hj. apply Hq; lia. }
    cbn [BroadcastLog_range]. rewrite Hc0, Hev.
    unfold evicts in He. destruct (write_err env i0).
    + by rewrite Hk.
    + cbn [orb] in He. rewrite He, Hk. done.
  - destruct (lookup_lt_is_Some_2 sc i) as [c Hc]; [lia|].
    rewrite (range_keep l env todo i sc (length sc) c Hc) by (apply Hq; lia).
    cbn [snd]. rewrite IH by (first [lia|done]).
    replace (i0 - i) with (S (i0 - S i)) by lia.
    by rewrite (drop_S sc c i Hc).
Qed.

Lemma single_eviction_writes (l : string) (env : Env) (sc : list Client) (i0 : nat)
    (c0 : Client) :
  i0 + 1 < length sc → sc !! i0 = Some c0 → evicts env i0 = true →
  (∀ j, j < length sc → j ≠ i0 → evicts env j = false) →
  (BroadcastLog l env sc).2 =
    ((λ c, (w c, l)) <$> take i0 sc)
    ++ (if write_err env i0 then [] else [(w c0, l)])
    ++ ((λ c, (w c, l)) <$> (drop (i0 + 2) sc ++ drop (length sc - 1) sc)).
Proof.
  intros Hn Hc0 He Hq. unfold BroadcastLog. cbn [snd].
  rewrite (range_single_writes l env (length sc) 0 i0 sc c0); [|lia|done|done|done|done|done].
  by rewrite Nat.sub_0_r.
Qed.

Lemma filter_other_writer (f : string) (wr : nat) (sc : list Client) :
  wr ∉ w <$> sc → filter (λ d, d.1 = wr) ((λ c, (w c, f)) <$> sc) = [].
Proof.
  induction sc as [|c sc IH]; intros H; [done|].
  rewrite fmap_cons in H. apply not_elem_of_cons in H as [H1 H2].
  rewrite fmap_cons, filter_cons_False by (cbn; congruence). by apply IH.
Qed.

(** X14. When exactly one iteration of a broadcast evicts, and it is not the
    last one, the writes are, in order: one to each client before the evicted
    one; one to the evicted one unless its write failed; one to each client
    from the second position after the evicted one on; and one more to the
    last client of the registry.  So when exactly one client follows the
    evicted one, every other client is written exactly once, in order; and
    when at least two follow (writers pairwise distinct), the client right
    after the evicted one is not written at all and the last client of the
    registry is written twice. *)
Theorem BroadcastLog_single_eviction_writes
    (l : string) (env : Env) (sc : list Client) (i0 : nat) (c0 : Client) :
  i0 + 1 < length sc → sc !! i0 = Some c0 → evicts env i0 = true →
  (∀ j, j < length sc → j ≠ i0 → evicts env j = false) →
  (BroadcastLog l env sc).2 =
    ((λ c, (w c, l)) <$> take i0 sc)
    ++ (if write_err env i0 then [] else [(w c0, l)])
    ++ ((λ c, (w c, l)) <$> (drop (i0 + 2) sc ++ drop (length sc - 1) sc))
  ∧ (i0 + 2 = length sc →
     (BroadcastLog l env sc).2 =
       ((λ c, (w c, l)) <$> take i0 sc)
       ++ (if write_err env i0 then [] else [(w c0, l)])
       ++ ((λ c, (w c, l)) <$> drop (i0 + 1) sc))
  ∧ (i0 + 2 < length sc → NoDup (w <$> sc) →
     ∀ c1 clast : Client,
       sc !! (i0 + 1) = Some c1 → sc !! (length sc - 1) = Some clast →
       filter (λ d, d.1 = w c1) (BroadcastLog l env sc).2 = []
       ∧ filter (λ d, d.1 = w clast) (BroadcastLog l env sc).2 =
           [(w clast, l); (w clast, l)]).
Proof.
  intros Hn Hc0 He Hq.
  pose proof (single_eviction_writes l env sc i0 c0 Hn Hc0 He Hq) as Hw.
  split; [exact Hw|]. split.
  - intros Hlast. rewrite Hw. do 3 f_equal.
    rewrite (drop_ge sc (i0 + 2)) by lia.
    by replace (length sc - 1) with (i0 + 1) by lia.
  - intros Hn2 Hnd c1 clast Hc1 Hlast. rewrite Hw.
    assert (drop (length sc - 1) sc = [clast]) as ->.
    { rewrite (drop_S sc clast _ Hlast).
      replace (S (length sc - 1)) with (length sc) by lia. by rewrite drop_all. }
    assert (clast ∈ drop (i0 + 2) sc) as Hin.
    { apply list_elem_of_lookup. exists (length sc - 1 - (i0 + 2)).
      rewrite lookup_drop.
      by replace (i0 + 2 + (length sc - 1 - (i0 + 2))) with (length sc - 1) by lia. }
    assert (sc = take i0 sc ++ c0 :: c1 :: drop (i0 + 2) sc) as Hsc.
    { rewrite <- (take_drop_middle sc i0 c0 Hc0) at 1. do 2 f_equal.
      replace (i0 + 1) with (S i0) in Hc1 by lia.
      rewrite (drop_S sc c1 (S i0) Hc1). by replace (S (S i0)) with (i0 + 2) by lia. }
    set (A := take i0 sc) in *. set (mid := drop (i0 + 2) sc) in *.
    rewrite Hsc in Hnd. rewrite fmap_app, !fmap_cons in Hnd.
    apply NoDup_app in Hnd as (_ & Hdis & Hnd).
    apply NoDup_cons in Hnd as [Hc0' Hnd]. apply NoDup_cons in Hnd as [Hc1' Hmid].
    assert (w clast ∈ w <$> mid) as Hwl by (by apply list_elem_of_fmap_2).
    assert (w c0 ≠ w c1) as H01.
    { intros E. apply Hc0'. rewrite E. by left. }
    assert (w c0 ≠ w clast) as H0l.
    { intros E. apply Hc0'. rewrite E. by right. }
    assert (w c1 ≠ w clast) as H1l.
    { intros E. apply Hc1'. by rewrite E. }
    assert (w c1 ∉ w <$> A) as HA1.
    { intros H. apply (Hdis _ H). right. by left. }
    assert (w clast ∉ w <$> A) as HAl.
    { intros H. apply (Hdis _ H). right. by right. }
    rewrite !filter_app, fmap_app, !filter_app.
    rewrite (filter_other_writer l (w c1) A HA1), (filter_other_writer l (w c1) mid Hc1').
    rewrite (filter_other_writer l (w clast) A HAl), (filter_own_writer l clast mid Hmid Hin).
    split.
    + destruct (write_err env i0).
      * rewrite filter_nil. cbn [app fmap list_fmap].
        by rewrite filter_cons_False by (cbn; congruence).
      * rewrite (filter_cons_False _ (w c0, l)) by (cbn; congruence).
        rewrite filter_nil. cbn [app fmap list_fmap].
        by rewrite filter_cons_False by (cbn; congruence).
    + destruct (write_err env i0).
      * rewrite filter_nil. cbn [app fmap list_fmap].
        by rewrite filter_cons_True by done.
      * rewrite (filter_cons_False _ (w c0, l)) by (cbn; congruence).
        rewrite filter_nil. cbn [app fmap list_fmap].
        by rewrite filter_cons_True by done.
Qed.

Lemma BroadcastLog_single_eviction_writes_witness :
  (BroadcastLog "f" {| write_err := λ i, bool_decide (i = 0); ctx_done := λ _, false |}
     [{| id := 1; w := 10; r := 10 |}; {| id := 2; w := 20; r := 20 |};
      {| id := 3; w := 30; r := 30 |}; {| id := 4; w := 40; r := 40 |}]).2 =
    [(30, "f"); (40, "f"); (40, "f")]
  ∧ filter (λ d, d.1 = 20)
      (BroadcastLog "f" {| write_err := λ i, bool_decide (i = 0); ctx_done := λ _, false |}
         [{| id := 1; w := 10; r := 10 |}; {| id := 2; w := 20; r := 20 |};
          {| id := 3; w := 30; r := 30 |}; {| id := 4; w := 40; r := 40 |}]).2 = []
  ∧ (BroadcastLog "f" {| write_err := λ _, false; ctx_done := λ i, bool_decide (i = 1) |}
       [{| id := 1; w := 10; r := 10 |}; {| id := 2; w := 20; r := 20 |};
        {| id := 3; w := 30; r := 30 |}]).2 =
      [(10, "f"); (20, "f"); (30, "f")].
Proof.
  destruct (BroadcastLog_single_eviction_writes "f"
              {| write_err := λ i, bool_decide (i = 0); ctx_done := λ _, false |}
              [{| id := 1; w := 10; r := 10 |}; {| id := 2; w := 20; r := 20 |};
               {| id := 3; w := 30; r := 30 |}; {| id := 4; w := 40; r := 40 |}]
              0 {| id := 1; w := 10; r := 10 |}) as (H1 & _ & H3).
  { cbn; lia. }
  { reflexivity. }
  { reflexivity. }
  { intros j _ Hj. unfold evicts. cbn [write_err ctx_done].
    by rewrite bool_decide_eq_false_2. }
  destruct (BroadcastLog_single_eviction_writes "f"
              {| write_err := λ _, false; ctx_done := λ i, bool_decide (i = 1) |}
              [{| id := 1; w := 10; r := 10 |}; {| id := 2; w := 20; r := 20 |};
               {| id := 3; w := 30; r := 30 |}]
              1 {| id := 2; w := 20; r := 20 |}) as (_ & H2 & _).
  { cbn; lia. }
  { reflexivity. }
  { reflexivity. }
  { intros j _ Hj. unfold evicts. cbn [write_err ctx_done].
    by rewrite bool_decide_eq_false_2. }
  split; [|split].
  - exact (eq_trans H1 eq_refl).
  - refine (proj1 (H3 _ _ {| id := 2; w := 20; r := 20 |} {| id := 4; w := 40; r := 40 |}
                      eq_refl eq_refl)).
    + cbn; lia.
    + apply (bool_decide_unpack _). vm_compute. exact I.
  - exact (eq_trans (H2 eq_refl) eq_refl).
Defined.

(** ** Command intake *)

Lemma switch_handler_event (req : Request) :
  ProcessEventQueue_switch (handler_event req) =
    Some match req with
         | GET_scan => go_Scan 5
         | GET_stop => go_StopScan
         | GET_connect addr => go_Connect addr
         | GET_disconnect => go_Disconnect
         end.
Proof. by destruct req. Qed.

Lemma ProcessEventQueue_handlers (reqs : list Request) :
  ProcessEventQueue (handler_event <$> reqs) =
    (λ req, match req with
            | GET_scan => go_Scan 5
            | GET_stop => go_StopScan
            | GET_connect addr => go_Connect addr
            | GET_disconnect => go_Disconnect
            end) <$> reqs.
Proof.
  induction reqs as [|req reqs IH]; [done|].
  unfold ProcessEventQueue in *. rewrite !fmap_cons. cbn [omap list_omap].
  by rewrite switch_handler_event, IH.
Qed.

Lemma ProcessEventQueue_app (q1 q2 : list Event) :
  ProcessEventQueue (q1 ++ q2) = ProcessEventQueue q1 ++ ProcessEventQueue q2.
Proof.
  unfold ProcessEventQueue. induction q1 as [|e q1 IH]; [done|].
  cbn [app omap list_omap]. rewrite IH. by destruct (ProcessEventQueue_switch e).
Qed.

Lemma intake_history (cs : list Intake_choice) (s0 s : Intake) (os : list Intake_obs)
    (reqs0 : list Request) :
  intake_run cs s0 = Some (s, os) → queue s0 = handler_event <$> reqs0 →
  queue s0 ++ (handler_event <$> accepted os) = left_queue os ++ queue s
  ∧ ops s = ops s0 ++ ProcessEventQueue (loop_received os)
  ∧ (length (queue s0) ≤ EventQueue_cap → length (queue s) ≤ EventQueue_cap)
  ∧ ∃ started_for still_queued : list Request,
      loop_received os = handler_event <$> started_for
      ∧ queue s = handler_event <$> still_queued
      ∧ sublist started_for (reqs0 ++ accepted os)
      ∧ length started_for + length (discarded os) + length still_queued
        = length reqs0 + length (accepted os).
Proof.
  revert s0 s os reqs0. induction cs as [|c cs IH]; intros s0 s os reqs0; cbn [intake_run].
  - intros [= <- <-] Hq. unfold accepted, loop_received, discarded, left_queue, ProcessEventQueue.
    cbn [flat_map omap list_omap app]. rewrite ?fmap_nil, ?app_nil_r.
    split_and!; [done|done|done|].
    exists [], reqs0. rewrite ?fmap_nil, ?app_nil_r. cbn [length].
    split_and!; [done|done|apply sublist_nil_l|lia].
  - destruct (intake_step c s0) as [[s1 o]|] eqn:Hstep; [|discriminate].
    destruct (intake_run cs s1) as [[s2 os']|] eqn:Hr; [|discriminate].
    intros [= <- <-] Hq. unfold intake_step in Hstep.
    unfold accepted, loop_received, discarded, left_queue in *.
    destruct c as [req| |].
    + case_decide as Hcap; [|discriminate]. injection Hstep as <- <-.
      destruct (IH _ _ _ (reqs0 ++ [req]) Hr) as (H1 & H2 & H3 & rs & rest & H4 & H5 & H6 & H7).
      { cbn [queue]. by rewrite Hq, fmap_app. }
      cbn [queue ops flat_map app] in *.
      split_and!.
      * rewrite <- H1, fmap_cons. by rewrite <- app_assoc.
      * done.
      * intros _. apply H3. rewrite length_app. cbn [length]. unfold EventQueue_cap in *. lia.
      * exists rs, rest. split_and!; [done|done| |].
        -- by rewrite <- app_assoc in H6.
        -- rewrite length_app in H7. cbn [length] in *. lia.
    + destruct (queue s0) as [|e q] eqn:Eq; [discriminate|]. injection Hstep as <- <-.
      destruct reqs0 as [|req0 reqs0]; [discriminate Hq|].
      rewrite fmap_cons in Hq. injection Hq as -> Hq.
      destruct (IH _ _ _ reqs0 Hr) as (H1 & H2 & H3 & rs & rest & H4 & H5 & H6 & H7);
        [done|].
      cbn [queue ops flat_map app] in *.
      split_and!.
      * by rewrite <- H1, Hq.
      * rewrite H2, <- app_assoc. f_equal.
        change (handler_event req0 :: flat_map _ os')
          with ([handler_event req0] ++ flat_map
                  (λ o, match o with Received e => [e] | _ => [] end) os').
        rewrite ProcessEventQueue_app. reflexivity.
      * intros Hc. apply H3. cbn [length] in Hc. lia.
      * exists (req0 :: rs), rest. split_and!.
        -- by rewrite fmap_cons, H4.
        -- done.
        -- by apply sublist_skip.
        -- cbn [length]. lia.
    + destruct (queue s0) as [|e q] eqn:Eq; [discriminate|]. injection Hstep as <- <-.
      destruct reqs0 as [|req0 reqs0]; [discriminate Hq|].
      rewrite fmap_cons in Hq. injection Hq as -> Hq.
      destruct (IH _ _ _ reqs0 Hr) as (H1 & H2 & H3 & rs & rest & H4 & H5 & H6 & H7);
        [done|].
      cbn [queue ops flat_map app] in *.
      split_and!.
      * by rewrite <- H1, Hq.
      * done.
      * intros Hc. apply H3. cbn [length] in Hc. lia.
      * exists rs, rest. split_and!; [done|done|by apply sublist_cons|].
        cbn [length]. lia.
Qed.

(** X15. An event that [ProcessEventQueue] receives from a command handler
    makes it start the matching operation: SCAN with a deadline of 5,
    STOP_SCAN, CONNECT with the address of the request unchanged, DISCONNECT;
    for any mix of requests, one operation per received event, in the order
    received.  An event of any other type starts nothing.  Over any
    interleaving of handlers accepting requests, [ProcessEventQueue]
    receiving and newly opened streams purging the queue: the queue is first
    in, first out and never holds more than its capacity; the operations
    started are exactly those of the events that [ProcessEventQueue]
    received, which come from accepted requests in the order of their
    acceptance; and every accepted request is either started, or was
    discarded by a purge and starts nothing, or is still queued. *)
Theorem command_intake :
  (∀ reqs : list Request,
     ProcessEventQueue (handler_event <$> reqs) =
       (λ req, match req with
               | GET_scan => go_Scan 5
               | GET_stop => go_StopScan
               | GET_connect addr => go_Connect addr
               | GET_disconnect => go_Disconnect
               end) <$> reqs)
  ∧ (∀ received,
       Forall (λ e, Type_ e ∉ ["SCAN"; "STOP_SCAN"; "CONNECT"; "DISCONNECT"]) received →
       ProcessEventQueue received = [])
  ∧ (∀ (cs : list Intake_choice) (s : Intake) (os : list Intake_obs),
       intake_run cs {| queue := []; ops := [] |} = Some (s, os) →
       (handler_event <$> accepted os) = left_queue os ++ queue s
       ∧ length (queue s) ≤ EventQueue_cap
       ∧ ∃ started_for still_queued : list Request,
           loop_received os = handler_event <$> started_for
           ∧ queue s = handler_event <$> still_queued
           ∧ sublist started_for (accepted os)
           ∧ ops s = (λ req, match req with
                             | GET_scan => go_Scan 5
                             | GET_stop => go_StopScan
                             | GET_connect addr => go_Connect addr
                             | GET_disconnect => go_Disconnect
                             end) <$> started_for
           ∧ length started_for + length (discarded os) + length still_queued
             = length (accepted os)).
Proof.
  split; [exact ProcessEventQueue_handlers|]. split.
  - intros received H. induction H as [|e received He _ IH]; [done|].
    unfold ProcessEventQueue in *. cbn [omap list_omap]. rewrite IH.
    unfold ProcessEventQueue_switch.
    repeat (case_bool_decide;
            [exfalso; apply He;
             match goal with E : Type_ e = _ |- _ => rewrite E end;
             apply (bool_decide_unpack _); vm_compute; exact I|]).
    done.
  - intros cs s os Hr.
    destruct (intake_history cs _ s os [] Hr eq_refl)
      as (H1 & H2 & H3 & rs & rest & H4 & H5 & H6 & H7).
    cbn [queue ops app length] in *.
    split; [exact H1|]. split; [apply H3; unfold EventQueue_cap; lia|].
    exists rs, rest. split_and!; [done|done|done| |lia].
    by rewrite H2, H4, ProcessEventQueue_handlers.
Qed.

Lemma command_intake_witness :
  ProcessEventQueue [{| Type_ := "scan"; Data := EmptyString |}] = []
  ∧ match intake_run [Accept GET_scan; Accept (GET_connect "AA:BB"); Receive; Discard;
                      Accept GET_disconnect]
                     {| queue := []; ops := [] |}
    with
    | Some (s, os) =>
        ops s = [go_Scan 5] ∧ queue s = [DisconnectHandler]
        ∧ length (queue s) ≤ EventQueue_cap
    | None => False
    end.
Proof.
  destruct command_intake as (_ & H2 & H3). split.
  - apply (H2 [{| Type_ := "scan"; Data := EmptyString |}]).
    repeat constructor. apply (bool_decide_unpack _). vm_compute. exact I.
  - destruct (intake_run _ _) as [[s os]|] eqn:E.
    + destruct (H3 _ s os E) as (_ & Hcap & _).
      vm_compute in E. injection E as <- <-.
      split; [reflexivity|]. split; [reflexivity|exact Hcap].
    + vm_compute in E. discriminate E.
Defined.

(** ** The page script *)

Lemma append_assoc (a b c : string) : (a +:+ b) +:+ c = a +:+ (b +:+ c).
Proof.
  induction a as [|x a IH]; rewrite ?append_nil, ?append_cons; [done|]. by rewrite IH.
Qed.

Lemma append_nil_r (a : string) : a +:+ EmptyString = a.
Proof.
  induction a as [|x a IH]; rewrite ?append_nil, ?append_cons; [done|]. by rewrite IH.
Qed.

Lemma replaceAll_dquote_app (a b : string) :
  replaceAll_dquote (a +:+ b) = replaceAll_dquote a +:+ replaceAll_dquote b.
Proof.
  induction a as [|c a IH]; rewrite ?append_nil, ?append_cons; [done|].
  cbn [replaceAll_dquote]. rewrite IH. by case_bool_decide.
Qed.

Lemma replaceAll_dquote_id (s : string) :
  has_char "034"%char s = false → replaceAll_dquote s = s.
Proof.
  induction s as [|c s IH]; cbn [has_char replaceAll_dquote]; [done|].
  intros [H1 H2]%orb_false_elim. rewrite H1. by rewrite IH.
Qed.

Lemma split_whole (sep : ascii) (s : string) :
  has_char sep s = false → split sep s = [s].
Proof.
  induction s as [|c s IH]; cbn [has_char split]; [done|].
  intros [H1 H2]%orb_false_elim. rewrite H1. by rewrite IH.
Qed.

Lemma split_at_sep (sep : ascii) (a b : string) :
  has_char sep a = false →
  split sep (a +:+ String sep b) = a :: split sep b.
Proof.
  induction a as [|c a IH]; rewrite ?append_nil, ?append_cons; cbn [has_char split].
  - intros _. by rewrite bool_decide_eq_true_2.
  - intros [H1 H2]%orb_false_elim. rewrite H1. by rewrite IH.
Qed.

Lemma has_char_app (c0 : ascii) (a b : string) :
  has_char c0 (a +:+ b) = has_char c0 a || has_char c0 b.
Proof.
  induction a as [|c a IH]; rewrite ?append_nil, ?append_cons; cbn [has_char orb]; [done|].
  rewrite IH. by rewrite orb_assoc.
Qed.

(** X16. For an address and a name that contain no double quote, no line
    feed and no carriage return (the address no semicolon either), the frame
    of the DEVICE entry is the event line, one data line and the empty line,
    and the text of that data line after [data: ] is the message between
    double quotes, without a line break in it.  The DEVICE listener of the
    page script, applied to that text, recovers the address and the name that
    the server put in, and the Connect button of the row leads to /connect/
    followed by that address; a name is cut at its first semicolon. *)
Theorem DEVICE_round_trip (addr name : string) :
  has_char ";"%char addr = false →
  has_char "034"%char addr = false → has_char "034"%char name = false →
  has_char "010"%char addr = false → has_char "010"%char name = false →
  has_char "013"%char addr = false → has_char "013"%char name = false →
  LogToSSE (LogDeviceInfo [addr; name]) =
    "event: DEVICE" +:+ nl +:+ "data: "
      +:+ (dquote +:+ Msg (LogDeviceInfo [addr; name]) +:+ dquote) +:+ nl +:+ nl
  ∧ has_char "010"%char (dquote +:+ Msg (LogDeviceInfo [addr; name]) +:+ dquote) = false
  ∧ has_char "013"%char (dquote +:+ Msg (LogDeviceInfo [addr; name]) +:+ dquote) = false
  ∧ DEVICE_listener (dquote +:+ Msg (LogDeviceInfo [addr; name]) +:+ dquote) =
      Some {| row_name := hd EmptyString (split ";" name); row_addr := addr;
              row_href := "/connect/" +:+ addr |}
  ∧ (has_char ";"%char name = false → hd EmptyString (split ";" name) = name).
Proof.
  intros H1 H2 H3 H4 H5 H6 H7. split; [|split; [|split; [|split]]].
  - unfold LogToSSE. cbn [LogDeviceInfo Level Msg]. rewrite Join_pair.
    rewrite !append_assoc. reflexivity.
  - cbn [LogDeviceInfo Msg]. rewrite Join_pair, !has_char_app, H4, H5. reflexivity.
  - cbn [LogDeviceInfo Msg]. rewrite Join_pair, !has_char_app, H6, H7. reflexivity.
  - unfold DEVICE_listener. cbn [LogDeviceInfo Msg]. rewrite Join_pair.
    rewrite !replaceAll_dquote_app.
    rewrite (replaceAll_dquote_id addr H2), (replaceAll_dquote_id name H3).
    change (replaceAll_dquote dquote) with EmptyString.
    change (replaceAll_dquote ";") with ";".
    rewrite append_nil, append_nil_r, append_cons, append_nil.
    unfold appendDevice.
    rewrite (split_at_sep ";"%char addr name H1).
    destruct (split ";" name) as [|piece pieces] eqn:E.
    + exfalso. destruct name; cbn [split] in E; [discriminate E|].
      case_bool_decide; [discriminate E|]. by destruct (split _ name).
    + cbn [length hd]. case_decide; [lia|done].
  - intros H8. by rewrite split_whole.
Qed.

Lemma DEVICE_round_trip_witness :
  DEVICE_listener (dquote +:+ Msg (LogDeviceInfo ["AA:BB"; "Lamp"]) +:+ dquote) =
    Some {| row_name := hd EmptyString (split ";" "Lamp"); row_addr := "AA:BB";
            row_href := "/connect/" +:+ "AA:BB" |}
  ∧ has_char "010"%char (dquote +:+ Msg (LogDeviceInfo ["AA:BB"; "Lamp"]) +:+ dquote) = false.
Proof.
  destruct (DEVICE_round_trip "AA:BB" "Lamp" eq_refl eq_refl eq_refl eq_refl eq_refl
              eq_refl eq_refl) as (_ & H2 & _ & H4 & _).
  split; [exact H4|exact H2].
Defined.

Lemma DEVICE_listener_once_inv (data : string) (ui : gmap string bool * list Row) :
  NoDup (row_addr <$> ui.2) →
  (∀ row, row ∈ ui.2 → ui.1 !! row_addr row = Some true) →
  NoDup (row_addr <$> (DEVICE_listener_once data ui).2)
  ∧ (∀ row, row ∈ (DEVICE_listener_once data ui).2 →
            (DEVICE_listener_once data ui).1 !! row_addr row = Some true).
Proof.
  intros Hnd Hin. unfold DEVICE_listener_once.
  case_decide; [done|].
  destruct (split ";" (replaceAll_dquote data)) as [|addr [|name rest]]; [done|done|].
  destruct (ui.1 !! addr) as [[|]|] eqn:E; cbn [default from_option Datatypes.id]; [done| |].
  - cbn [fst snd]. split.
    + rewrite fmap_app. apply NoDup_app. split_and!; [done| |by apply NoDup_singleton].
      intros a Ha [->|Hb%elem_of_nil]%elem_of_cons; [|done].
      apply list_elem_of_fmap in Ha as (row & Heq & Hrow).
      specialize (Hin row Hrow). cbn [row_addr] in Heq. congruence.
    + intros row [Hrow|[->|Hb%elem_of_nil]%elem_of_cons]%elem_of_app; [| |done].
      * destruct (decide (row_addr row = addr)) as [<-|Hne].
        -- by rewrite lookup_insert_eq.
        -- rewrite lookup_insert_ne by done. by apply Hin.
      * cbn [row_addr]. by rewrite lookup_insert_eq.
  - cbn [fst snd]. split.
    + rewrite fmap_app. apply NoDup_app. split_and!; [done| |by apply NoDup_singleton].
      intros a Ha [->|Hb%elem_of_nil]%elem_of_cons; [|done].
      apply list_elem_of_fmap in Ha as (row & Heq & Hrow).
      specialize (Hin row Hrow). cbn [row_addr] in Heq. congruence.
    + intros row [Hrow|[->|Hb%elem_of_nil]%elem_of_cons]%elem_of_app; [| |done].
      * destruct (decide (row_addr row = addr)) as [<-|Hne].
        -- by rewrite lookup_insert_eq.
        -- rewrite lookup_insert_ne by done. by apply Hin.
      * cbn [row_addr]. by rewrite lookup_insert_eq.
Qed.

(** X17. The later page script shows an address at most once: whatever DEVICE
    data arrive, in whatever order and however often (replays included), the
    rows of the device table have pairwise distinct addresses, and it keeps
    the row it showed first for an address. *)
Theorem DEVICE_rows_distinct (datas : list string) :
  NoDup (row_addr <$> (DEVICE_events datas (∅, [])).2)
  ∧ ∀ more : list string,
      (DEVICE_events datas (∅, [])).2 `prefix_of` (DEVICE_events (datas ++ more) (∅, [])).2.
Proof.
  assert (∀ ds ui,
            NoDup (row_addr <$> ui.2) →
            (∀ row, row ∈ ui.2 → ui.1 !! row_addr row = Some true) →
            NoDup (row_addr <$> (DEVICE_events ds ui).2)) as Hinv.
  { induction ds as [|d ds IH]; intros ui H1 H2; [done|].
    unfold DEVICE_events in *. cbn [foldl].
    destruct (DEVICE_listener_once_inv d ui H1 H2) as [H3 H4]. by apply IH. }
  split.
  - apply Hinv; [constructor|]. intros row Hrow. by apply elem_of_nil in Hrow.
  - intros more. unfold DEVICE_events. rewrite foldl_app.
    generalize (foldl (λ ui data, DEVICE_listener_once data ui) (∅, []) datas).
    induction more as [|d more IH]; intros ui; cbn [foldl]; [done|].
    etrans; [|apply IH].
    unfold DEVICE_listener_once. case_decide; [done|].
    destruct (split ";" (replaceAll_dquote d)) as [|addr [|name rest]]; [done|done|].
    destruct (default false (ui.1 !! addr)); [done|].
    cbn [snd]. by apply prefix_app_r.
Qed.
